(** * Named-placeholder rewriting and binding of [db.go]

    A shallow embedding of the rewriting and binding engine of [db.go]:
    the regular expression [re], the closures handed to
    [re.ReplaceAllStringFunc], [MapToSlice], [StructToSlice],
    [DB.Prepare], [Tx.Prepare], the [Stmt] binders and the facade
    methods that forward to the driver. *)

From Stdlib Require Import Ascii String.
From stdpp Require Import gmap strings list fin_maps.

Local Open Scope string_scope.
Local Open Scope list_scope.
#[local] Arguments String.append !_ _ : simpl nomatch.

(** ** The Go runtime: panics *)

(** The run-time panics [db.go] can raise.  A panic unwinds through
    every caller, [ReplaceAllStringFunc] included. *)
Inductive panic :=
| PanicInterfaceOnZeroValue
| PanicInterfaceOnUnexported
| PanicIndexOutOfRange
| PanicNilDereference.

Inductive res (A : Type) :=
| Done (a : A)
| Panic (p : panic).
Arguments Done {A} a.
Arguments Panic {A} p.

(** ** The regular expression [re = `[?](\w+)`] and [ReplaceAllStringFunc] *)

Module Regexp.

(** [\w] of Go's [regexp] syntax: the ASCII class [[0-9A-Za-z_]].  A Go
    string is a byte sequence; every byte of a multi-byte rune is
    above 127, so matching byte by byte agrees with matching rune by
    rune for this expression. *)
Definition is_word (c : ascii) : bool :=
  let n := nat_of_ascii c in
  (((48 <=? n) && (n <=? 57)) || ((65 <=? n) && (n <=? 90))
   || (n =? 95) || ((97 <=? n) && (n <=? 122)))%nat.

(** The greedy [\w*] at the head of [s]: the longest run of word
    characters, and the text after it. *)
Fixpoint span_word (s : string) : string * string :=
  match s with
  | String c t =>
      if is_word c
      then let (w, r) := span_word t in (String c w, r)
      else ("", s)
  | EmptyString => ("", "")
  end.

(** A template cut at the leftmost, non-overlapping matches of [re]:
    [Match m] is one match (the whole text [m], question mark
    included), [Text c] one byte outside every match. *)
Inductive segment :=
| Text (c : ascii)
| Match (m : string).

Fixpoint segments_fuel (fuel : nat) (s : string) : list segment :=
  match fuel, s with
  | _, EmptyString => []
  | 0, String _ _ => []
  | S f, String c t =>
      if Ascii.eqb c "?" then
        match span_word t with
        | (EmptyString, _) => Text c :: segments_fuel f t
        | (w, r) => Match (String c w) :: segments_fuel f r
        end
      else Text c :: segments_fuel f t
  end.

(** One unit of fuel per byte is enough ([segments_fuel_enough]). *)
Definition segments (s : string) : list segment :=
  segments_fuel (String.length s) s.

(** [replace_segments] copies the text between matches and calls
    [repl] on each match, left to right; [St] is what the closure
    captures by reference. *)
Fixpoint replace_segments {St : Type}
    (repl : string -> St -> res (string * St))
    (segs : list segment) (st : St) : res (string * St) :=
  match segs with
  | [] => Done ("", st)
  | Text c :: rest =>
      match replace_segments repl rest st with
      | Done (out, st') => Done (String c out, st')
      | Panic p => Panic p
      end
  | Match m :: rest =>
      match repl m st with
      | Done (r, st1) =>
          match replace_segments repl rest st1 with
          | Done (out, st2) => Done (r +:+ out, st2)
          | Panic p => Panic p
          end
      | Panic p => Panic p
      end
  end.

Definition ReplaceAllStringFunc {St : Type} (src : string)
    (repl : string -> St -> res (string * St)) (st : St)
  : res (string * St) :=
  replace_segments repl (segments src) st.

End Regexp.
Export Regexp.

(** ** Values, errors and the [reflect] view of an argument *)

(** A [driver.Value]: what a driver accepts as a bound argument. *)
Inductive value :=
| VNil
| VInt (z : Z)
| VBool (b : bool)
| VString (s : string).

(** Modelled from the spec: the package variables [ErrNoMapPointer] and
    [ErrNoStructPointer] are declared outside [db.go]; the spec files
    both under [InvalidArgumentKind].  They are sentinels compared by
    identity, hence two constructors. *)
Inductive sentinel :=
| NoMapPointer
| NoStructPointer.

Inductive error :=
| Sentinel (s : sentinel)
| errorString (msg : string)      (* [errors.New], [fmt.Errorf] *)
| ForeignError (code : nat).      (* raised by the driver or by a Valuer *)

Definition ErrNoMapPointer : error := Sentinel NoMapPointer.
Definition ErrNoStructPointer : error := Sentinel NoStructPointer.

(** A Go value held in an [interface{}], by what [db.go] can tell about
    it: either its dynamic type does not implement [driver.Valuer], or it
    does and [Value()] returns [(result, err)]. *)
Inductive any :=
| Raw (v : value)
| Valuer (result : value) (err : option error).

#[global] Instance value_eq_dec : EqDecision value.
Proof. solve_decision. Defined.
#[global] Instance sentinel_eq_dec : EqDecision sentinel.
Proof. solve_decision. Defined.
#[global] Instance error_eq_dec : EqDecision error.
Proof. solve_decision. Defined.
#[global] Instance any_eq_dec : EqDecision any.
Proof. solve_decision. Defined.

(** The variable behind a pointer, by the kind of its static type.  A
    map is keyed by strings, as the binders look it up; a struct is the
    finite map from the names [FieldByName] finds to the field values. *)
Inductive pointee :=
| AMap (m : gmap string any)
| AStruct (fields : gmap string any)
| AOther.

(** The [mp] / [st] argument of the binding functions. *)
Inductive iface :=
| Nil
| Scalar (v : value)
| MapOf (m : gmap string any)
| StructOf (fields : gmap string any)
| PtrTo (p : option pointee).

Module reflect.

Inductive Kind :=
| Invalid
| Ptr
| Map
| Struct
| Other.

#[global] Instance Kind_eq_dec : EqDecision Kind.
Proof. solve_decision. Defined.

(** A [reflect.Value]; [Zero] is the zero Value, for which [IsValid]
    is false. *)
Inductive Value :=
| Zero
| OfOther
| OfMap (m : gmap string any)
| OfStruct (fields : gmap string any)
| OfPtr (p : option pointee)
| OfAny (x : any) (exported : bool).

Definition ValueOf (x : iface) : Value :=
  match x with
  | Nil => Zero
  | Scalar _ => OfOther
  | MapOf m => OfMap m
  | StructOf fs => OfStruct fs
  | PtrTo p => OfPtr p
  end.

Definition kind (v : Value) : Kind :=
  match v with
  | Zero => Invalid
  | OfMap _ => Map
  | OfStruct _ => Struct
  | OfPtr _ => Ptr
  | OfOther | OfAny _ _ => Other
  end.

(** [Elem] of a nil pointer is the zero Value.  [db.go] calls [Elem]
    only behind a [Kind() == Ptr] test, so its panic on other kinds is
    never reached; those cases return [Zero] here. *)
Definition Elem (v : Value) : Value :=
  match v with
  | OfPtr (Some (AMap m)) => OfMap m
  | OfPtr (Some (AStruct fs)) => OfStruct fs
  | OfPtr (Some AOther) => OfOther
  | _ => Zero
  end.

(** [MapIndex] gives the zero Value for a key the map does not hold. *)
Definition MapIndex (v : Value) (key : string) : Value :=
  match v with
  | OfMap m => match m !! key with Some x => OfAny x true | None => Zero end
  | _ => Zero
  end.

(** A struct field is exported when its name starts with an upper-case
    letter; the names matched by [\w+] are ASCII. *)
Definition is_exported (name : string) : bool :=
  match name with
  | String c _ => let n := nat_of_ascii c in ((65 <=? n) && (n <=? 90))%nat
  | EmptyString => false
  end.

(** [FieldByName] gives the zero Value when the struct has no such
    field. *)
Definition FieldByName (v : Value) (name : string) : Value :=
  match v with
  | OfStruct fs =>
      match fs !! name with
      | Some x => OfAny x (is_exported name)
      | None => Zero
      end
  | _ => Zero
  end.

Definition IsValid (v : Value) : bool :=
  match v with Zero => false | _ => true end.

(** [Interface] panics on the zero Value and on a Value obtained from
    an unexported field.  [db.go] applies it to results of [MapIndex]
    and [FieldByName] only. *)
Definition Interface (v : Value) : res any :=
  match v with
  | OfAny x true => Done x
  | OfAny _ false => Panic PanicInterfaceOnUnexported
  | _ => Panic PanicInterfaceOnZeroValue
  end.

End reflect.

(** ** Objects, the driver and the store *)

Definition loc := nat.
Definition IMapper := nat.

Record DB := mkDB {
  DB_sql : nat;               (* the embedded [*sql.DB] *)
  DB_Mapper : IMapper;
  DB_enableTrace : bool }.

Record Tx := mkTx {
  Tx_sql : nat;               (* the embedded [*sql.Tx] *)
  Tx_Mapper : IMapper;
  Tx_enableTrace : bool }.

Record Stmt := mkStmt {
  Stmt_sql : option nat;      (* the embedded [*sql.Stmt] *)
  Stmt_Mapper : IMapper;
  Stmt_names : loc;           (* a Go map is a reference to a shared table *)
  Stmt_enableTrace : bool }.

Record Rows := mkRows {
  Rows_sql : option nat;      (* the embedded [*sql.Rows] *)
  Rows_Mapper : IMapper }.

Record Row := mkRow {
  Row_rows : option Rows;
  Row_err : option error }.

(** The calls [db.go] makes on [database/sql]. *)
Inductive call :=
| DBQueryContext (db : nat) (query : string) (args : list any)
| DBExecContext (db : nat) (query : string) (args : list any)
| DBPrepareContext (db : nat) (query : string)
| TxQueryContext (tx : nat) (query : string) (args : list any)
| TxExecContext (tx : nat) (query : string) (args : list any)
| TxPrepareContext (tx : nat) (query : string)
| StmtQueryContext (stmt : option nat) (args : list any)
| StmtExecContext (stmt : option nat) (args : list any).

(** [database/sql] answers a call with a handle and an error, as Go
    returns them. *)
Definition driver := call -> option nat * option error.

Inductive event :=
| SpanStart (operationName query : string)
| SpanFinish
| DriverCall (c : call).

(** The store: the name tables made by [make(map[string]int)], the
    [Stmt] objects made by [&Stmt{...}], and what has been sent to the
    collaborators so far (oldest first). *)
Record world := mkWorld {
  tables : list (gmap string nat);
  stmts : list Stmt;
  log : list event }.

Definition M (A : Type) : Type := world -> res A * world.

Definition ret {A} (a : A) : M A := fun w => (Done a, w).

Definition bind {A B} (c : M A) (k : A -> M B) : M B :=
  fun w => match c w with
           | (Done a, w') => k a w'
           | (Panic p, w') => (Panic p, w')
           end.

Notation "'let*' x ':=' c 'in' k" := (bind c (fun x => k))
  (at level 10, x pattern, c at level 100, k at level 200).

Definition lift {A} (r : res A) : M A := fun w => (r, w).

Definition emit (e : event) : M unit :=
  fun w => (Done tt, mkWorld (tables w) (stmts w) (log w ++ [e])).

Definition alloc_table (t : gmap string nat) : M loc :=
  fun w => (Done (length (tables w)),
            mkWorld (tables w ++ [t]) (stmts w) (log w)).

Definition store_table (l : loc) (t : gmap string nat) : M unit :=
  fun w => (Done tt, mkWorld (<[l := t]> (tables w)) (stmts w) (log w)).

Definition load_table (l : loc) : M (gmap string nat) :=
  fun w => match tables w !! l with
           | Some t => (Done t, w)
           | None => (Panic PanicNilDereference, w)
           end.

Definition alloc_stmt (s : Stmt) : M loc :=
  fun w => (Done (length (stmts w)),
            mkWorld (tables w) (stmts w ++ [s]) (log w)).

(** A [*Stmt] is a location of the store, or nil. *)
Definition load_stmt (p : option loc) : M Stmt :=
  fun w => match p ≫= (fun l => stmts w !! l) with
           | Some s => (Done s, w)
           | None => (Panic PanicNilDereference, w)
           end.

(** [newClientSpanFromContext]: the span is named by the text before
    the first space when that space is not the first byte. *)
Definition operationName (query : string) : string :=
  match String.index 0 " " query with
  | Some (S n) => String.substring 0 (S n) query
  | _ => query
  end.

(** [if enable { span := newClientSpanFromContext(ctx, query); defer
    span.Finish() }] around [body]: the deferred [Finish] runs when
    [body] returns and when it panics. *)
Definition traced {A} (enable : bool) (query : string) (body : M A) : M A :=
  if enable then
    fun w =>
      match emit (SpanStart (operationName query) query) w with
      | (_, w1) =>
          match body w1 with
          | (r, w2) => (r, mkWorld (tables w2) (stmts w2) (log w2 ++ [SpanFinish]))
          end
      end
  else body.

(** ** The closures and the two ad-hoc binders *)

(** [src[1:]].  Every match of [re] starts with the question mark
    ([segments_match_shape]), so the slice never panics. *)
Definition slice_from_1 (src : string) : string :=
  match src with
  | String _ t => t
  | EmptyString => EmptyString
  end.

(** [fmt.Errorf("map key %s is missing", key)] *)
Definition Errorf_missing (key : string) : error :=
  errorString ("map key " +:+ key +:+ " is missing").

(** The closure of [DB.Prepare] and [Tx.Prepare]; it captures [names]
    and [i].  [i] is a Go [int]; it counts matches, at most one per two
    bytes of the template, so it never wraps and is a [nat] here. *)
Definition prepare_repl (src : string) (st : gmap string nat * nat)
  : res (string * (gmap string nat * nat)) :=
  let '(names, i) := st in
  Done ("?", (<[slice_from_1 src := i]> names, i + 1)).

(** The closure of [MapToSlice]; it captures [args] and [err], and
    reads the map behind [vv.Elem()]. *)
Definition map_repl (elem : reflect.Value) (src : string)
    (st : list any * option error)
  : res (string * (list any * option error)) :=
  let '(args, err) := st in
  let v := reflect.MapIndex elem (slice_from_1 src) in
  if negb (reflect.IsValid v) then
    Done ("?", (args, Some (Errorf_missing (slice_from_1 src))))
  else
    match reflect.Interface v with
    | Done x => Done ("?", ((args ++ [x])%list, err))
    | Panic p => Panic p
    end.

Definition MapToSlice (query : string) (mp : iface)
  : res (string * list any * option error) :=
  let vv := reflect.ValueOf mp in
  if bool_decide (reflect.kind vv ≠ reflect.Ptr)
     || bool_decide (reflect.kind (reflect.Elem vv) ≠ reflect.Map)
  then Done ("", [], Some ErrNoMapPointer)
  else
    match ReplaceAllStringFunc query (map_repl (reflect.Elem vv)) ([], None) with
    | Done (query', (args, err)) => Done (query', args, err)
    | Panic p => Panic p
    end.

(** The closure of [StructToSlice].  [value, err = v.Value()] assigns
    the captured [err] on every call of a Valuer, also when the call
    succeeds. *)
Definition struct_repl (elem : reflect.Value) (src : string)
    (st : list any * option error)
  : res (string * (list any * option error)) :=
  let '(args, err) := st in
  match reflect.Interface (reflect.FieldByName elem (slice_from_1 src)) with
  | Panic p => Panic p
  | Done fv =>
      match fv with
      | Valuer value err' =>
          match err' with
          | Some _ => Done ("?", (args, err'))
          | None => Done ("?", ((args ++ [Raw value])%list, err'))
          end
      | Raw _ => Done ("?", ((args ++ [fv])%list, err))
      end
  end.

Definition StructToSlice (query : string) (st : iface)
  : res (string * list any * option error) :=
  let vv := reflect.ValueOf st in
  if bool_decide (reflect.kind vv ≠ reflect.Ptr)
     || bool_decide (reflect.kind (reflect.Elem vv) ≠ reflect.Struct)
  then Done ("", [], Some ErrNoStructPointer)
  else
    match ReplaceAllStringFunc query (struct_repl (reflect.Elem vv)) ([], None) with
    | Done (query', (args, err)) =>
        match err with
        | Some _ => Done ("", [], err)
        | None => Done (query', args, None)
        end
    | Panic p => Panic p
    end.

(** ** The execution facade *)

Section Facade.

(** The driver behind [database/sql]. *)
Variable drv : driver.

(** The order in which [for k, i := range s.names] visits a table.  Go
    leaves it unspecified; every theorem below holds for each order. *)
Variable range : gmap string nat -> list (string * nat).

Definition driver_call (c : call) : M (option nat * option error) :=
  let* _ := emit (DriverCall c) in ret (drv c).

Definition DB_Query (db : DB) (query : string) (args : list any)
  : M (option Rows * option error) :=
  traced (DB_enableTrace db) query
    (let* (rows, err) := driver_call (DBQueryContext (DB_sql db) query args) in
     match err with
     | Some _ => ret (None, err)
     | None => ret (Some (mkRows rows (DB_Mapper db)), None)
     end).

Definition DB_Exec (db : DB) (query : string) (args : list any)
  : M (option nat * option error) :=
  traced (DB_enableTrace db) query
    (driver_call (DBExecContext (DB_sql db) query args)).

Definition DB_QueryMap (db : DB) (query : string) (mp : iface)
  : M (option Rows * option error) :=
  let* (query, args, err) := lift (MapToSlice query mp) in
  match err with
  | Some _ => ret (None, err)
  | None => DB_Query db query args
  end.

Definition DB_QueryStruct (db : DB) (query : string) (st : iface)
  : M (option Rows * option error) :=
  let* (query, args, err) := lift (StructToSlice query st) in
  match err with
  | Some _ => ret (None, err)
  | None => DB_Query db query args
  end.

Definition DB_QueryRow (db : DB) (query : string) (args : list any) : M Row :=
  let* (rows, err) := DB_Query db query args in
  match err with
  | Some _ => ret (mkRow None err)
  | None => ret (mkRow rows None)
  end.

Definition DB_QueryRowMap (db : DB) (query : string) (mp : iface) : M Row :=
  let* (query, args, err) := lift (MapToSlice query mp) in
  match err with
  | Some _ => ret (mkRow None err)
  | None => DB_QueryRow db query args
  end.

Definition DB_QueryRowStruct (db : DB) (query : string) (st : iface) : M Row :=
  let* (query, args, err) := lift (StructToSlice query st) in
  match err with
  | Some _ => ret (mkRow None err)
  | None => DB_QueryRow db query args
  end.

Definition DB_ExecMap (db : DB) (query : string) (mp : iface)
  : M (option nat * option error) :=
  let* (query, args, err) := lift (MapToSlice query mp) in
  match err with
  | Some _ => ret (None, err)
  | None => DB_Exec db query args
  end.

Definition DB_ExecStruct (db : DB) (query : string) (st : iface)
  : M (option nat * option error) :=
  let* (query, args, err) := lift (StructToSlice query st) in
  match err with
  | Some _ => ret (None, err)
  | None => DB_Exec db query args
  end.

(** [DB.Prepare] returns a [*Stmt]: a location of the store, or nil. *)
Definition DB_Prepare (db : DB) (query : string)
  : M (option loc * option error) :=
  let* names := alloc_table ∅ in
  let* (query, (tbl, _)) := lift (ReplaceAllStringFunc query prepare_repl (∅, 0)) in
  let* _ := store_table names tbl in
  traced (DB_enableTrace db) query
    (let* (stmt, err) := driver_call (DBPrepareContext (DB_sql db) query) in
     match err with
     | Some _ => ret (None, err)
     | None =>
         let* p := alloc_stmt (mkStmt stmt (DB_Mapper db) names (DB_enableTrace db)) in
         ret (Some p, None)
     end).

Definition Tx_Prepare (tx : Tx) (query : string)
  : M (option loc * option error) :=
  let* names := alloc_table ∅ in
  let* (query, (tbl, _)) := lift (ReplaceAllStringFunc query prepare_repl (∅, 0)) in
  let* _ := store_table names tbl in
  traced (Tx_enableTrace tx) query
    (let* (stmt, err) := driver_call (TxPrepareContext (Tx_sql tx) query) in
     match err with
     | Some _ => ret (None, err)
     | None =>
         let* p := alloc_stmt (mkStmt stmt (Tx_Mapper tx) names (Tx_enableTrace tx)) in
         ret (Some p, None)
     end).

Definition Tx_Stmt (tx : Tx) (stmt : option loc) : option loc := stmt.

Definition Tx_Exec (tx : Tx) (query : string) (args : list any)
  : M (option nat * option error) :=
  traced (Tx_enableTrace tx) query
    (driver_call (TxExecContext (Tx_sql tx) query args)).

Definition Tx_ExecMap (tx : Tx) (query : string) (mp : iface)
  : M (option nat * option error) :=
  let* (query, args, err) := lift (MapToSlice query mp) in
  match err with
  | Some _ => ret (None, err)
  | None => Tx_Exec tx query args
  end.

Definition Tx_ExecStruct (tx : Tx) (query : string) (st : iface)
  : M (option nat * option error) :=
  let* (query, args, err) := lift (StructToSlice query st) in
  match err with
  | Some _ => ret (None, err)
  | None => Tx_Exec tx query args
  end.

Definition Tx_Query (tx : Tx) (query : string) (args : list any)
  : M (option Rows * option error) :=
  traced (Tx_enableTrace tx) query
    (let* (rows, err) := driver_call (TxQueryContext (Tx_sql tx) query args) in
     match err with
     | Some _ => ret (None, err)
     | None => ret (Some (mkRows rows (Tx_Mapper tx)), None)
     end).

Definition Tx_QueryMap (tx : Tx) (query : string) (mp : iface)
  : M (option Rows * option error) :=
  let* (query, args, err) := lift (MapToSlice query mp) in
  match err with
  | Some _ => ret (None, err)
  | None => Tx_Query tx query args
  end.

Definition Tx_QueryStruct (tx : Tx) (query : string) (st : iface)
  : M (option Rows * option error) :=
  let* (query, args, err) := lift (StructToSlice query st) in
  match err with
  | Some _ => ret (None, err)
  | None => Tx_Query tx query args
  end.

Definition Tx_QueryRow (tx : Tx) (query : string) (args : list any) : M Row :=
  let* (rows, err) := Tx_Query tx query args in
  ret (mkRow rows err).

Definition Tx_QueryRowMap (tx : Tx) (query : string) (mp : iface) : M Row :=
  let* (query, args, err) := lift (MapToSlice query mp) in
  match err with
  | Some _ => ret (mkRow None err)
  | None => Tx_QueryRow tx query args
  end.

Definition Tx_QueryRowStruct (tx : Tx) (query : string) (st : iface) : M Row :=
  let* (query, args, err) := lift (StructToSlice query st) in
  match err with
  | Some _ => ret (mkRow None err)
  | None => Tx_QueryRow tx query args
  end.

Definition Stmt_Exec (s : option loc) (args : list any)
  : M (option nat * option error) :=
  let* st := load_stmt s in
  traced (Stmt_enableTrace st) "Stmt Exec"
    (driver_call (StmtExecContext (Stmt_sql st) args)).

Definition Stmt_Query (s : option loc) (args : list any)
  : M (option Rows * option error) :=
  let* st := load_stmt s in
  traced (Stmt_enableTrace st) "Stmt Query"
    (let* (rows, err) := driver_call (StmtQueryContext (Stmt_sql st) args) in
     match err with
     | Some _ => ret (None, err)
     | None => ret (Some (mkRows rows (Stmt_Mapper st)), None)
     end).

Definition Stmt_QueryRow (s : option loc) (args : list any) : M Row :=
  let* (rows, err) := Stmt_Query s args in
  ret (mkRow rows err).

(** [for k, i := range names { args[i] = get(k) }]: the right-hand side
    is evaluated first, then the store checks the index. *)
Fixpoint bind_range (get : string -> res any) (kis : list (string * nat))
    (args : list any) : res (list any) :=
  match kis with
  | [] => Done args
  | (k, i) :: rest =>
      match get k with
      | Panic p => Panic p
      | Done x =>
          if decide (i < length args)
          then bind_range get rest (<[i := x]> args)
          else Panic PanicIndexOutOfRange
      end
  end.

(** [args := make([]interface{}, len(s.names))] followed by the loop
    over [s.names]; the seven [Stmt] binders repeat this text with
    [get] either a map lookup or a field lookup. *)
Definition Stmt_bind (s : option loc) (get : string -> res any) : M (list any) :=
  let* st := load_stmt s in
  let* names := load_table (Stmt_names st) in
  lift (bind_range get (range names) (replicate (size names) (Raw VNil))).

Definition map_get (vv : reflect.Value) (k : string) : res any :=
  reflect.Interface (reflect.MapIndex (reflect.Elem vv) k).

Definition field_get (vv : reflect.Value) (k : string) : res any :=
  reflect.Interface (reflect.FieldByName (reflect.Elem vv) k).

Definition not_map_pointer (vv : reflect.Value) : bool :=
  bool_decide (reflect.kind vv ≠ reflect.Ptr)
  || bool_decide (reflect.kind (reflect.Elem vv) ≠ reflect.Map).

Definition not_struct_pointer (vv : reflect.Value) : bool :=
  bool_decide (reflect.kind vv ≠ reflect.Ptr)
  || bool_decide (reflect.kind (reflect.Elem vv) ≠ reflect.Struct).

Definition Stmt_ExecMap (s : option loc) (mp : iface)
  : M (option nat * option error) :=
  let vv := reflect.ValueOf mp in
  if not_map_pointer vv
  then ret (None, Some (errorString "mp should be a map's pointer"))
  else let* args := Stmt_bind s (map_get vv) in Stmt_Exec s args.

Definition Stmt_ExecStruct (s : option loc) (st : iface)
  : M (option nat * option error) :=
  let vv := reflect.ValueOf st in
  if not_struct_pointer vv
  then ret (None, Some (errorString "mp should be a map's pointer"))
  else let* args := Stmt_bind s (field_get vv) in Stmt_Exec s args.

Definition Stmt_QueryMap (s : option loc) (mp : iface)
  : M (option Rows * option error) :=
  let vv := reflect.ValueOf mp in
  if not_map_pointer vv
  then ret (None, Some (errorString "mp should be a map's pointer"))
  else let* args := Stmt_bind s (map_get vv) in Stmt_Query s args.

Definition Stmt_QueryStruct (s : option loc) (st : iface)
  : M (option Rows * option error) :=
  let vv := reflect.ValueOf st in
  if not_struct_pointer vv
  then ret (None, Some (errorString "mp should be a map's pointer"))
  else let* args := Stmt_bind s (field_get vv) in Stmt_Query s args.

Definition Stmt_QueryRowMap (s : option loc) (mp : iface) : M Row :=
  let vv := reflect.ValueOf mp in
  if not_map_pointer vv
  then ret (mkRow None (Some (errorString "mp should be a map's pointer")))
  else let* args := Stmt_bind s (map_get vv) in Stmt_QueryRow s args.

Definition Stmt_QueryRowStruct (s : option loc) (st : iface) : M Row :=
  let vv := reflect.ValueOf st in
  if not_struct_pointer vv
  then ret (mkRow None (Some (errorString "st should be a struct's pointer")))
  else let* args := Stmt_bind s (field_get vv) in Stmt_QueryRow s args.

End Facade.

(** ** Vocabulary of the statements *)

(** The matches among the segments of a template, left to right, and
    the identifiers they capture. *)
Definition matches_of (segs : list segment) : list string :=
  omap (fun seg => match seg with Match m => Some m | Text _ => None end) segs.

Definition matches (q : string) : list string := matches_of (segments q).

Definition placeholders (q : string) : list string :=
  slice_from_1 <$> matches q.

(** The segments with one positional marker written over each match. *)
Definition render (segs : list segment) : string :=
  foldr (fun seg out => match seg with
                        | Text c => String c out
                        | Match _ => String "?" out
                        end) "" segs.

Definition rewritten (q : string) : string := render (segments q).

(** A named-placeholder token somewhere in [q]: a question mark
    followed by a word character. *)
Definition has_token (q : string) : Prop :=
  exists pre c post, q = pre +:+ String "?" (String c post) /\ is_word c = true.

(** The same as a test, scanning for a question mark followed by a word
    character ([has_tokenb_spec]). *)
Fixpoint has_tokenb (q : string) : bool :=
  match q with
  | String c t =>
      (Ascii.eqb c "?" && match t with
                          | String c' _ => is_word c'
                          | EmptyString => false
                          end)
      || has_tokenb t
  | EmptyString => false
  end.

(** [u] does not continue an identifier that ends just before it. *)
Definition boundary (u : string) : Prop :=
  match u with
  | String c _ => is_word c = false
  | EmptyString => True
  end.

Fixpoint all_word (w : string) : bool :=
  match w with
  | String c t => is_word c && all_word t
  | EmptyString => true
  end.

(** What the closure of [Prepare] has done to [(names, i)] after the
    identifiers [ns]. *)
Definition record_names (ns : list string) (st : gmap string nat * nat)
  : gmap string nat * nat :=
  foldl (fun st n => (<[n := st.2]> st.1, st.2 + 1)) st ns.

Definition name_table (q : string) : gmap string nat :=
  (record_names (placeholders q) (∅, 0)).1.

(** What the closure of [MapToSlice] has done to [(args, err)] after
    the identifiers [ns]. *)
Definition bind_names (m : gmap string any) (ns : list string)
    (st : list any * option error) : list any * option error :=
  foldl (fun st n => match m !! n with
                     | Some x => ((st.1 ++ [x])%list, st.2)
                     | None => (st.1, Some (Errorf_missing n))
                     end) st ns.

(** The events of a call wrapped in an optional span. *)
Definition spanned (enable : bool) (query : string) (evs : list event)
  : list event :=
  if enable
  then SpanStart (operationName query) query :: evs ++ [SpanFinish]
  else evs.

Definition is_driver_call (e : event) : bool :=
  match e with DriverCall _ => true | _ => false end.

(** The driver calls recorded in a log. *)
Definition driver_calls (evs : list event) : list event :=
  filter (fun e => is_driver_call e = true) evs.

(** The text the segments were cut from. *)
Definition unscan (segs : list segment) : string :=
  foldr (fun seg out => match seg with
                        | Text c => String c out
                        | Match m => m +:+ out
                        end) "" segs.

(** A named-placeholder token: a question mark, then one or more word
    characters. *)
Definition is_token (m : string) : Prop :=
  exists w, m = String "?" w /\ w <> "" /\ all_word w = true.

(** The identifiers of [ns] the map [m] has no entry for, in template
    order. *)
Definition missing_names (m : gmap string any) (ns : list string) : list string :=
  filter (fun n => m !! n = None) ns.

(** The argument kinds the binders accept. *)
Definition is_map_pointer (x : iface) : Prop :=
  exists m, x = PtrTo (Some (AMap m)).

Definition is_struct_pointer (x : iface) : Prop :=
  exists fs, x = PtrTo (Some (AStruct fs)).

(** The kind-check error of the [Stmt] binders: [errors.New] with one
    of the two texts of [db.go]. *)
Definition map_kind_error : error := errorString "mp should be a map's pointer".
Definition struct_kind_error : error := errorString "st should be a struct's pointer".

(** What the closure of [StructToSlice] has done to [(args, err)]
    after the identifiers [ns], when no field access panics. *)
Definition bind_field (fs : gmap string any) (n : string)
    (st : list any * option error) : res (list any * option error) :=
  match fs !! n with
  | None => Panic PanicInterfaceOnZeroValue
  | Some fv =>
      if reflect.is_exported n then
        match fv with
        | Valuer value (Some e) => Done (st.1, Some e)
        | Valuer value None => Done (st.1 ++ [Raw value], None)
        | Raw _ => Done (st.1 ++ [fv], st.2)
        end
      else Panic PanicInterfaceOnUnexported
  end.

Fixpoint bind_fields (fs : gmap string any) (ns : list string)
    (st : list any * option error) : res (list any * option error) :=
  match ns with
  | [] => Done st
  | n :: ns' =>
      match bind_field fs n st with
      | Done st' => bind_fields fs ns' st'
      | Panic p => Panic p
      end
  end.

(** What [DB.Prepare] and [Tx.Prepare] do to the store, [send] being
    the driver call that carries the rewritten template. *)
Definition prepare_outcome (drv : driver) (send : string -> call)
    (mapper : IMapper) (trace : bool) (q : string) (w : world)
  : res (option loc * option error) * world :=
  let evs := spanned trace (rewritten q) [DriverCall (send (rewritten q))] in
  let tbls := tables w ++ [name_table q] in
  match drv (send (rewritten q)) with
  | (_, Some e) =>
      (Done (None, Some e), mkWorld tbls (stmts w) (log w ++ evs))
  | (stmt, None) =>
      (Done (Some (length (stmts w)), None),
       mkWorld tbls
               (stmts w ++ [mkStmt stmt mapper (length (tables w)) trace])
               (log w ++ evs))
  end.

(** Sample inputs: a driver that accepts every call, a connection
    with tracing on, a transaction with tracing off, the empty store,
    and tables visited in the order of [map_to_list]. *)
Definition ok_driver : driver := fun _ => (Some 7, None).
Definition sample_db : DB := mkDB 1 0 true.
Definition sample_tx : Tx := mkTx 2 0 false.
Definition empty_world : world := mkWorld [] [] [].
Definition range_list (t : gmap string nat) : list (string * nat) := map_to_list t.

(** A struct [{A, B}] whose two fields implement [driver.Valuer]: the
    conversion of [A] fails with [e], the conversion of [B] gives [v]. *)
Definition failing_then_converting (e : error) (v : value) : iface :=
  PtrTo (Some (AStruct {[ "A" := Valuer VNil (Some e); "B" := Valuer v None ]})).

(** ** Construction of a [DB] *)

(** An [Option] mutates the [DB] behind the pointer it is given. *)
Definition Option : Type := DB -> DB.

Definition CacheMapperOption (im : IMapper) : Option :=
  fun db => mkDB (DB_sql db) im (DB_enableTrace db).

Definition EnableTraceOption (enable : bool) : Option :=
  fun db => mkDB (DB_sql db) (DB_Mapper db) enable.

(** [FromDB]: [default_mapper] stands for
    [NewCacheMapper(&SnakeMapper{})], which is built outside [db.go];
    [enableTrace] starts at the zero value of [bool]. *)
Definition FromDB (default_mapper : IMapper) (db : nat) (opts : list Option) : DB :=
  foldl (fun xdb opt => opt xdb) (mkDB db default_mapper false) opts.

(** The two options [db.go] provides, as data. *)
Inductive option_spec :=
| WithMapper (im : IMapper)
| WithTrace (enable : bool).

Definition to_Option (o : option_spec) : Option :=
  match o with
  | WithMapper im => CacheMapperOption im
  | WithTrace enable => EnableTraceOption enable
  end.

(** The mapper and the flag the last option of each kind asks for. *)
Definition chosen_mapper (default_mapper : IMapper) (os : list option_spec) : IMapper :=
  foldl (fun im o => match o with WithMapper im' => im' | WithTrace _ => im end)
        default_mapper os.

Definition chosen_trace (os : list option_spec) : bool :=
  foldl (fun b o => match o with WithTrace b' => b' | WithMapper _ => b end)
        false os.

(** ** More vocabulary *)

(** The question marks of a text, and the question marks of a template
    the scan leaves as text. *)
Fixpoint marks (s : string) : nat :=
  match s with
  | String c t => (if Ascii.eqb c "?" then 1 else 0) + marks t
  | EmptyString => 0
  end.

Fixpoint bare_marks_of (segs : list segment) : nat :=
  match segs with
  | Text c :: rest => (if Ascii.eqb c "?" then 1 else 0) + bare_marks_of rest
  | Match _ :: rest => bare_marks_of rest
  | [] => 0
  end.

Definition bare_marks (q : string) : nat := bare_marks_of (segments q).

Fixpoint has_space (s : string) : bool :=
  match s with
  | String c t => Ascii.eqb c " " || has_space t
  | EmptyString => false
  end.

(** The argument [StructToSlice] appends for a field: the converted
    value of a Valuer whose conversion succeeds, the field itself when
    it is no Valuer, nothing when the conversion fails. *)
Definition field_arg (fv : any) : option any :=
  match fv with
  | Raw _ => Some fv
  | Valuer value None => Some (Raw value)
  | Valuer _ (Some _) => None
  end.

(** A field [StructToSlice] can read: present and exported. *)
Definition readable (fs : gmap string any) (n : string) : Prop :=
  is_Some (fs !! n) /\ reflect.is_exported n = true.

(** The events one driver call leaves in the log. *)
Definition call_events (enable : bool) (label : string) (c : call) : list event :=
  spanned enable label [DriverCall c].

Definition logged (w : world) (evs : list event) : world :=
  mkWorld (tables w) (stmts w) (log w ++ evs).

(** What [Query] makes of the driver's answer: on an error the rows
    are dropped, otherwise they are wrapped with the mapper of the
    handle. *)
Definition rows_result (mapper : IMapper) (r : option nat * option error)
  : option Rows * option error :=
  match r.2 with
  | Some _ => (None, r.2)
  | None => (Some (mkRows r.1 mapper), None)
  end.

Definition row_result (mapper : IMapper) (r : option nat * option error) : Row :=
  mkRow (rows_result mapper r).1 (rows_result mapper r).2.

(** The text of [s] before its first space. *)
Fixpoint until_space (s : string) : string :=
  match s with
  | String c t => if Ascii.eqb c " " then "" else String c (until_space t)
  | EmptyString => ""
  end.

(** ** The scan *)

Lemma append_nil_r (s : string) : s +:+ "" = s.
Proof. induction s as [|c s IH]; simpl; [done | by f_equal]. Qed.

Lemma append_assoc (s t u : string) : (s +:+ t) +:+ u = s +:+ (t +:+ u).
Proof. induction s as [|c s IH]; simpl; [done | by f_equal]. Qed.

Lemma span_word_spec (s w r : string) :
  span_word s = (w, r) ->
  s = w +:+ r /\ all_word w = true /\ boundary r /\
  String.length r <= String.length s.
Proof.
  revert w r. induction s as [|c s IH]; intros w r; simpl.
  - intros [= <- <-]. simpl. auto.
  - destruct (is_word c) eqn:Hc.
    + destruct (span_word s) as [w' r'] eqn:Hs. intros [= <- <-].
      destruct (IH _ _ eq_refl) as (-> & Hw & Hb & Hl).
      simpl. rewrite Hc, Hw. repeat split; auto with lia.
    + intros [= <- <-]. simpl. rewrite Hc. auto.
Qed.

Lemma span_word_boundary (u : string) : boundary u -> span_word u = ("", u).
Proof. destruct u as [|c u]; simpl; [done | by intros ->]. Qed.

Lemma span_word_app (w r : string) :
  all_word w = true -> boundary r -> span_word (w +:+ r) = (w, r).
Proof.
  induction w as [|c w IH]; simpl; intros Hw Hr.
  - by apply span_word_boundary.
  - apply andb_prop in Hw as [-> Hw]. by rewrite IH.
Qed.

Lemma span_word_app_boundary (t u w r : string) :
  boundary u -> span_word t = (w, r) -> span_word (t +:+ u) = (w, r +:+ u).
Proof.
  intros Hu. revert w r. induction t as [|c t IH]; intros w r; simpl.
  - intros [= <- <-]. by apply span_word_boundary.
  - destruct (is_word c).
    + destruct (span_word t) as [w' r'] eqn:Ht. intros [= <- <-].
      by rewrite (IH _ _ eq_refl).
    + by intros [= <- <-].
Qed.

Lemma segments_fuel_irrel (f1 f2 : nat) (s : string) :
  String.length s <= f1 -> String.length s <= f2 ->
  segments_fuel f1 s = segments_fuel f2 s.
Proof.
  revert f2 s. induction f1 as [|f1 IH]; intros f2 s H1 H2.
  - destruct s; simpl in *; [by destruct f2 | lia].
  - destruct s as [|c t]; [by destruct f2|].
    destruct f2 as [|f2]; simpl in *; [lia|].
    destruct (Ascii.eqb c "?").
    + destruct (span_word t) as [w r] eqn:Ht.
      apply span_word_spec in Ht as (_ & _ & _ & Hl).
      destruct w; f_equal; apply IH; lia.
    + f_equal. apply IH; lia.
Qed.

(** The fuel given by [segments] is enough: more fuel changes nothing. *)
Lemma segments_fuel_enough (f : nat) (s : string) :
  String.length s <= f -> segments_fuel f s = segments s.
Proof. intros H. by apply segments_fuel_irrel. Qed.

Lemma segments_nil : segments "" = [].
Proof. done. Qed.

Lemma segments_cons (c : ascii) (t : string) :
  segments (String c t) =
  if Ascii.eqb c "?" then
    match span_word t with
    | (EmptyString, _) => Text c :: segments t
    | (w, r) => Match (String c w) :: segments r
    end
  else Text c :: segments t.
Proof.
  unfold segments at 1. simpl.
  destruct (Ascii.eqb c "?").
  - destruct (span_word t) as [w r] eqn:Ht.
    apply span_word_spec in Ht as (_ & _ & _ & Hl).
    destruct w; f_equal; by apply segments_fuel_enough.
  - done.
Qed.

(** Induction along the scan: a byte of text, a bare question mark, or
    a token followed by the rest of the template. *)
Lemma segments_ind (P : string -> list segment -> Prop) :
  P "" [] ->
  (forall c t, c <> "?"%char -> P t (segments t) ->
               P (String c t) (Text c :: segments t)) ->
  (forall t, boundary t -> P t (segments t) ->
             P (String "?" t) (Text "?" :: segments t)) ->
  (forall w r, w <> "" -> all_word w = true -> boundary r ->
               P r (segments r) ->
               P (String "?" (w +:+ r)) (Match (String "?" w) :: segments r)) ->
  forall s, P s (segments s).
Proof.
  intros Hnil Htext Hbare Htok s.
  remember (String.length s) as n eqn:Hn.
  revert s Hn. induction (lt_wf n) as [n _ IH]. intros s ->.
  destruct s as [|c t]; [done|].
  rewrite segments_cons.
  destruct (Ascii.eqb_spec c "?") as [->|Hc].
  - destruct (span_word t) as [w r] eqn:Ht.
    apply span_word_spec in Ht as (-> & Hw & Hb & Hl).
    destruct w as [|c' w].
    + simpl in *. apply Hbare; [done|]. eapply IH; [|done]. simpl; lia.
    + apply (Htok (String c' w) r); [done..|].
      eapply IH; [|done]. simpl in *. lia.
  - apply Htext; [done|]. eapply IH; [|done]. simpl; lia.
Qed.

Lemma boundary_app (r u : string) : boundary r -> boundary u -> boundary (r +:+ u).
Proof. by destruct r. Qed.

(** Cutting a template where no identifier can continue does not
    change how either half is scanned. *)
Lemma segments_app (t u : string) :
  boundary u -> segments (t +:+ u) = segments t ++ segments u.
Proof.
  intros Hu. pattern t, (segments t). apply segments_ind; clear t.
  - done.
  - intros c t Hc IH. simpl. rewrite segments_cons.
    destruct (Ascii.eqb_spec c "?"); [done|]. by rewrite IH.
  - intros t Ht IH. simpl. rewrite segments_cons. simpl.
    rewrite (span_word_boundary (t +:+ u)) by by apply boundary_app.
    by rewrite IH.
  - intros w r Hne Hw Hr IH. simpl. rewrite segments_cons. simpl.
    rewrite append_assoc, span_word_app by (by try apply boundary_app).
    destruct w; [done|]. by rewrite IH.
Qed.

Lemma segments_bare (t : string) :
  boundary t -> segments (String "?" t) = Text "?" :: segments t.
Proof.
  intros Ht. rewrite segments_cons. simpl. by rewrite span_word_boundary.
Qed.

Lemma segments_token (w r : string) :
  w <> "" -> all_word w = true -> boundary r ->
  segments (String "?" (w +:+ r)) = Match (String "?" w) :: segments r.
Proof.
  intros Hne Hw Hr. rewrite segments_cons. simpl.
  rewrite span_word_app by done. by destruct w.
Qed.

Lemma has_token_cons (c : ascii) (t : string) :
  has_token t -> has_token (String c t).
Proof.
  intros (pre & c' & post & -> & Hc). by exists (String c pre), c', post.
Qed.

(** A template without tokens is text throughout. *)
Lemma segments_no_token (t : string) :
  ~ has_token t -> segments t = Text <$> list_ascii_of_string t.
Proof.
  induction t as [|c t IH]; intros Hno; [done|].
  rewrite segments_cons. simpl.
  assert (Ht : segments t = Text <$> list_ascii_of_string t).
  { apply IH. intros H. by apply Hno, has_token_cons. }
  destruct (Ascii.eqb_spec c "?") as [->|_]; [|by rewrite Ht].
  destruct (span_word t) as [w r] eqn:Hs.
  apply span_word_spec in Hs as (-> & Hw & _ & _).
  destruct w as [|c' w]; [by rewrite Ht|].
  exfalso. apply Hno. exists "", c', (w +:+ r). split; [done|].
  simpl in Hw. by apply andb_prop in Hw as [? _].
Qed.

(** Every match is a question mark followed by one or more word
    characters. *)
Lemma segments_match_shape (q : string) :
  Forall is_token (matches q).
Proof.
  unfold matches. pattern q, (segments q). apply segments_ind; simpl; auto.
  intros w r Hne Hw _ IH. constructor; [by exists w | done].
Qed.

Lemma render_app (a b : list segment) : render (a ++ b) = render a +:+ render b.
Proof.
  induction a as [|[c|m] a IH]; [done | | ];
    change (render (?x :: ?l)) with (String (match x with Text c => c | Match _ => "?"%char end) (render l));
    simpl; by rewrite <- IH.
Qed.

Lemma render_text (t : string) : render (Text <$> list_ascii_of_string t) = t.
Proof.
  induction t as [|c t IH]; [done|].
  change (String c (render (Text <$> list_ascii_of_string t)) = String c t).
  by rewrite IH.
Qed.

Lemma matches_of_app (a b : list segment) :
  matches_of (a ++ b) = matches_of a ++ matches_of b.
Proof. unfold matches_of. apply omap_app. Qed.

Lemma matches_of_text (t : string) :
  matches_of (Text <$> list_ascii_of_string t) = [].
Proof. induction t as [|c t IH]; [done|]. simpl. apply IH. Qed.

(** ** The closures *)

Lemma replace_text {St : Type} (repl : string -> St -> res (string * St))
    (t : string) (st : St) :
  replace_segments repl (Text <$> list_ascii_of_string t) st = Done (t, st).
Proof. induction t as [|c t IH]; [done|]. csimpl. by rewrite IH. Qed.

Lemma replace_prepare (segs : list segment) (st : gmap string nat * nat) :
  replace_segments prepare_repl segs st =
  Done (render segs, record_names (slice_from_1 <$> matches_of segs) st).
Proof.
  revert st. induction segs as [|[c|m] segs IH]; intros [names i]; simpl.
  - done.
  - by rewrite IH.
  - by rewrite IH.
Qed.

Lemma replace_map (m : gmap string any) (segs : list segment)
    (st : list any * option error) :
  replace_segments (map_repl (reflect.OfMap m)) segs st =
  Done (render segs, bind_names m (slice_from_1 <$> matches_of segs) st).
Proof.
  revert st. induction segs as [|[c|x] segs IH]; intros [args err]; simpl.
  - done.
  - by rewrite IH.
  - unfold map_repl. simpl. destruct (m !! slice_from_1 x); simpl; by rewrite IH.
Qed.

Lemma replace_struct (fs : gmap string any) (segs : list segment)
    (st : list any * option error) :
  replace_segments (struct_repl (reflect.OfStruct fs)) segs st =
  match bind_fields fs (slice_from_1 <$> matches_of segs) st with
  | Done st' => Done (render segs, st')
  | Panic p => Panic p
  end.
Proof.
  revert st. induction segs as [|[c|x] segs IH]; intros [args err]; simpl.
  - done.
  - rewrite IH. by destruct (bind_fields _ _ _).
  - unfold struct_repl, bind_field. simpl.
    destruct (fs !! slice_from_1 x) as [fv|]; simpl; [|done].
    destruct (reflect.is_exported (slice_from_1 x)); simpl; [|done].
    destruct fv as [v|v [e|]]; simpl; rewrite IH;
      by destruct (bind_fields _ _ _).
Qed.

Lemma MapToSlice_eq (q : string) (m : gmap string any) :
  MapToSlice q (PtrTo (Some (AMap m))) =
  Done (rewritten q,
        (bind_names m (placeholders q) ([], None)).1,
        (bind_names m (placeholders q) ([], None)).2).
Proof.
  unfold MapToSlice, ReplaceAllStringFunc. simpl. rewrite replace_map.
  fold (matches q). fold (placeholders q).
  by destruct (bind_names m (placeholders q) ([], None)).
Qed.

Lemma StructToSlice_eq (q : string) (fs : gmap string any) :
  StructToSlice q (PtrTo (Some (AStruct fs))) =
  match bind_fields fs (placeholders q) ([], None) with
  | Done (args, None) => Done (rewritten q, args, None)
  | Done (_, Some e) => Done ("", [], Some e)
  | Panic p => Panic p
  end.
Proof.
  unfold StructToSlice, ReplaceAllStringFunc. simpl. rewrite replace_struct.
  fold (matches q). fold (placeholders q).
  destruct (bind_fields fs (placeholders q) ([], None)) as [[args [e|]]|]; done.
Qed.

Lemma insert_fresh_table (tbls : list (gmap string nat)) (t t' : gmap string nat) :
  <[length tbls := t']> (tbls ++ [t]) = tbls ++ [t'].
Proof. rewrite insert_app_r_alt by lia. by rewrite Nat.sub_diag. Qed.

Lemma DB_Prepare_eq (drv : driver) (db : DB) (q : string) (w : world) :
  DB_Prepare drv db q w =
  prepare_outcome drv (DBPrepareContext (DB_sql db)) (DB_Mapper db)
                  (DB_enableTrace db) q w.
Proof.
  unfold DB_Prepare, prepare_outcome, bind, alloc_table, lift, store_table.
  unfold ReplaceAllStringFunc. rewrite replace_prepare.
  fold (matches q). fold (placeholders q). unfold name_table.
  destruct (record_names (placeholders q) (∅, 0)) as [tbl i]. simpl.
  rewrite insert_fresh_table.
  unfold traced, spanned, driver_call, bind, emit, ret, alloc_stmt.
  destruct (DB_enableTrace db); simpl;
    destruct (drv _) as [stmt [e|]]; simpl; rewrite <- ?app_assoc; done.
Qed.

Lemma Tx_Prepare_eq (drv : driver) (tx : Tx) (q : string) (w : world) :
  Tx_Prepare drv tx q w =
  prepare_outcome drv (TxPrepareContext (Tx_sql tx)) (Tx_Mapper tx)
                  (Tx_enableTrace tx) q w.
Proof.
  unfold Tx_Prepare, prepare_outcome, bind, alloc_table, lift, store_table.
  unfold ReplaceAllStringFunc. rewrite replace_prepare.
  fold (matches q). fold (placeholders q). unfold name_table.
  destruct (record_names (placeholders q) (∅, 0)) as [tbl i]. simpl.
  rewrite insert_fresh_table.
  unfold traced, spanned, driver_call, bind, emit, ret, alloc_stmt.
  destruct (Tx_enableTrace tx); simpl;
    destruct (drv _) as [stmt [e|]]; simpl; rewrite <- ?app_assoc; done.
Qed.

Lemma has_tokenb_spec (q : string) : has_tokenb q = true <-> has_token q.
Proof.
  split.
  - induction q as [|c t IH]; simpl; [done|].
    intros [H|H]%orb_prop.
    + apply andb_prop in H as [Hc Ht]. apply Ascii.eqb_eq in Hc as ->.
      destruct t as [|c' t]; [done|]. by exists "", c', t.
    + by apply has_token_cons, IH.
  - intros (pre & c & post & -> & Hc).
    induction pre as [|c' pre IH]; simpl.
    + by rewrite Hc.
    + rewrite IH. by rewrite orb_true_r.
Qed.

Lemma no_token_test (q : string) : has_tokenb q = false -> ~ has_token q.
Proof. intros H Ht%has_tokenb_spec. congruence. Qed.

Lemma segments_text_token (t w r : string) :
  ~ has_token t -> w <> "" -> all_word w = true -> boundary r ->
  segments (t +:+ String "?" (w +:+ r)) =
  (Text <$> list_ascii_of_string t) ++ Match (String "?" w) :: segments r.
Proof.
  intros Ht Hne Hw Hr.
  rewrite segments_app by done.
  by rewrite segments_no_token, segments_token.
Qed.

Lemma driver_calls_app (l1 l2 : list event) :
  driver_calls (l1 ++ l2) = driver_calls l1 ++ driver_calls l2.
Proof. apply filter_app. Qed.

Lemma driver_calls_call (c : call) : driver_calls [DriverCall c] = [DriverCall c].
Proof. reflexivity. Qed.

Lemma driver_calls_start (op q : string) : driver_calls [SpanStart op q] = [].
Proof. reflexivity. Qed.

Lemma driver_calls_finish : driver_calls [SpanFinish] = [].
Proof. reflexivity. Qed.

Lemma driver_calls_spanned (enable : bool) (q : string) (evs : list event) :
  driver_calls (spanned enable q evs) = driver_calls evs.
Proof.
  unfold spanned. destruct enable; [|done].
  change (SpanStart (operationName q) q :: evs ++ [SpanFinish])
    with ([SpanStart (operationName q) q] ++ evs ++ [SpanFinish]).
  rewrite !driver_calls_app. simpl. by rewrite app_nil_r.
Qed.

(** What [Prepare] leaves in the store, whatever the driver answers. *)
Lemma prepare_outcome_store (drv : driver) (send : string -> call)
    (mapper : IMapper) (trace : bool) (q : string) (w : world) :
  tables (prepare_outcome drv send mapper trace q w).2
    = tables w ++ [name_table q] /\
  driver_calls (log (prepare_outcome drv send mapper trace q w).2)
    = driver_calls (log w) ++ [DriverCall (send (rewritten q))].
Proof.
  unfold prepare_outcome.
  destruct (drv _) as [stmt [e|]]; simpl;
    by rewrite driver_calls_app, driver_calls_spanned.
Qed.

(** The handle [Prepare] returns on success. *)
Lemma prepare_outcome_handle (drv : driver) (send : string -> call)
    (mapper : IMapper) (trace : bool) (q : string) (w w' : world)
    (p : loc) :
  prepare_outcome drv send mapper trace q w = (Done (Some p, None), w') ->
  p = length (stmts w) /\
  tables w' = tables w ++ [name_table q] /\
  exists stmt,
    stmts w' = stmts w ++ [mkStmt stmt mapper (length (tables w)) trace].
Proof.
  unfold prepare_outcome.
  destruct (drv _) as [stmt [e|]]; intros [= <- <-]; simpl; eauto.
Qed.

(** ** The claims *)

(** C1. A template whose named placeholders are [?a], [?b], [?a] in
    that order, with any token-free text around them: the closure of
    [Prepare] runs three times, writing one positional marker over each
    placeholder, and leaves the name table [a -> 2, b -> 1];
    [DB.Prepare] and [Tx.Prepare] store that table and send that
    rewritten template to the driver; [MapToSlice] returns the same
    rewritten template.  [StructToSlice] returns nothing for such a
    template: [a] and [b] start with a lower-case letter, so the field
    they name is missing or unexported, and reading it panics, whatever
    the struct. *)
Theorem C1_rewrite_a_b_a (drv : driver) (db : DB) (tx : Tx) (w : world)
    (t0 t1 t2 t3 : string) :
  ~ has_token t0 -> ~ has_token t1 -> ~ has_token t2 -> ~ has_token t3 ->
  boundary t1 -> boundary t2 -> boundary t3 ->
  let q := t0 +:+ "?a" +:+ t1 +:+ "?b" +:+ t2 +:+ "?a" +:+ t3 in
  let q' := t0 +:+ "?" +:+ t1 +:+ "?" +:+ t2 +:+ "?" +:+ t3 in
  let tbl : gmap string nat := {[ "a" := 2; "b" := 1 ]} in
  ReplaceAllStringFunc q prepare_repl (∅, 0) = Done (q', (tbl, 3)) /\
  tables (DB_Prepare drv db q w).2 = tables w ++ [tbl] /\
  driver_calls (log (DB_Prepare drv db q w).2)
    = driver_calls (log w) ++ [DriverCall (DBPrepareContext (DB_sql db) q')] /\
  tables (Tx_Prepare drv tx q w).2 = tables w ++ [tbl] /\
  driver_calls (log (Tx_Prepare drv tx q w).2)
    = driver_calls (log w) ++ [DriverCall (TxPrepareContext (Tx_sql tx) q')] /\
  (forall m, exists args err,
      MapToSlice q (PtrTo (Some (AMap m))) = Done (q', args, err)) /\
  (forall fs, exists p,
      StructToSlice q (PtrTo (Some (AStruct fs))) = Panic p).
Proof.
  intros H0 H1 H2 H3 B1 B2 B3 q q' tbl.
  assert (Hseg : segments q =
    (Text <$> list_ascii_of_string t0) ++ Match "?a" ::
    (Text <$> list_ascii_of_string t1) ++ Match "?b" ::
    (Text <$> list_ascii_of_string t2) ++ Match "?a" ::
    (Text <$> list_ascii_of_string t3)).
  { change q with
      (t0 +:+ String "?" ("a" +:+ t1 +:+ String "?" ("b" +:+ t2 +:+
         String "?" ("a" +:+ t3)))).
    rewrite (segments_text_token t0 "a") by (by try apply boundary_app).
    rewrite (segments_text_token t1 "b") by (by try apply boundary_app).
    rewrite (segments_text_token t2 "a") by done.
    by rewrite segments_no_token. }
  assert (Hq' : rewritten q = q').
  { unfold rewritten. rewrite Hseg.
    rewrite !render_app.
    change (render (?x :: ?l)) with (String "?" (render l)).
    rewrite !render_app.
    change (render (Match "?b" :: ?l)) with (String "?" (render l)).
    rewrite !render_app.
    change (render (Match "?a" :: ?l)) with (String "?" (render l)).
    by rewrite !render_text. }
  assert (Hns : placeholders q = ["a"; "b"; "a"]).
  { unfold placeholders, matches. rewrite Hseg.
    repeat (rewrite matches_of_app, matches_of_text; simpl).
    by rewrite ?matches_of_text. }
  assert (Htbl : record_names (placeholders q) (∅, 0) = (tbl, 3)).
  { rewrite Hns. by vm_compute. }
  assert (Hnt : name_table q = tbl) by (unfold name_table; by rewrite Htbl).
  split; [|split; [|split; [|split; [|split; [|split]]]]].
  - unfold ReplaceAllStringFunc. rewrite replace_prepare.
    fold (matches q). fold (placeholders q). fold (rewritten q).
    by rewrite Htbl, Hq'.
  - rewrite DB_Prepare_eq.
    destruct (prepare_outcome_store drv (DBPrepareContext (DB_sql db))
                (DB_Mapper db) (DB_enableTrace db) q w) as [-> _].
    by rewrite Hnt.
  - rewrite DB_Prepare_eq.
    destruct (prepare_outcome_store drv (DBPrepareContext (DB_sql db))
                (DB_Mapper db) (DB_enableTrace db) q w) as [_ ->].
    by rewrite Hq'.
  - rewrite Tx_Prepare_eq.
    destruct (prepare_outcome_store drv (TxPrepareContext (Tx_sql tx))
                (Tx_Mapper tx) (Tx_enableTrace tx) q w) as [-> _].
    by rewrite Hnt.
  - rewrite Tx_Prepare_eq.
    destruct (prepare_outcome_store drv (TxPrepareContext (Tx_sql tx))
                (Tx_Mapper tx) (Tx_enableTrace tx) q w) as [_ ->].
    by rewrite Hq'.
  - intros m. rewrite MapToSlice_eq, Hq'. eauto.
  - intros fs. rewrite StructToSlice_eq, Hns. simpl. unfold bind_field.
    destruct (fs !! "a"); simpl; eauto.
Qed.

Lemma unscan_segments (q : string) : unscan (segments q) = q.
Proof.
  pattern q, (segments q). apply segments_ind; try done.
  - intros c t _ IH. change (String c (unscan (segments t)) = String c t).
    by rewrite IH.
  - intros t _ IH. change (String "?" (unscan (segments t)) = String "?" t).
    by rewrite IH.
  - intros w r _ _ _ IH.
    change (String "?" w +:+ unscan (segments r) = String "?" (w +:+ r)).
    by rewrite IH.
Qed.

Lemma no_token_rewrite (q : string) :
  ~ has_token q ->
  rewritten q = q /\ placeholders q = [] /\ name_table q = ∅.
Proof.
  intros Hq. unfold name_table, placeholders, matches, rewritten.
  rewrite segments_no_token by done.
  by rewrite render_text, matches_of_text.
Qed.

(** C6. A template with no question mark followed by a word character
    comes back unchanged from [MapToSlice] and [StructToSlice], with an
    empty argument list and no error; the closure of [Prepare] leaves
    the name table empty, and [DB.Prepare] and [Tx.Prepare] store the
    empty table and hand the template to the driver as it is. *)
Theorem C6_no_placeholder_identity (drv : driver) (db : DB) (tx : Tx)
    (w : world) (q : string) (m fs : gmap string any) :
  ~ has_token q ->
  MapToSlice q (PtrTo (Some (AMap m))) = Done (q, [], None) /\
  StructToSlice q (PtrTo (Some (AStruct fs))) = Done (q, [], None) /\
  ReplaceAllStringFunc q prepare_repl (∅, 0) = Done (q, (∅, 0)) /\
  tables (DB_Prepare drv db q w).2 = tables w ++ [∅] /\
  driver_calls (log (DB_Prepare drv db q w).2)
    = driver_calls (log w) ++ [DriverCall (DBPrepareContext (DB_sql db) q)] /\
  tables (Tx_Prepare drv tx q w).2 = tables w ++ [∅] /\
  driver_calls (log (Tx_Prepare drv tx q w).2)
    = driver_calls (log w) ++ [DriverCall (TxPrepareContext (Tx_sql tx) q)].
Proof.
  intros Hq. destruct (no_token_rewrite q Hq) as (Hr & Hp & Ht).
  split; [|split; [|split; [|split; [|split; [|split]]]]].
  - by rewrite MapToSlice_eq, Hr, Hp.
  - by rewrite StructToSlice_eq, Hr, Hp.
  - unfold ReplaceAllStringFunc. rewrite segments_no_token by done.
    apply replace_text.
  - rewrite DB_Prepare_eq.
    destruct (prepare_outcome_store drv (DBPrepareContext (DB_sql db))
                (DB_Mapper db) (DB_enableTrace db) q w) as [-> _].
    by rewrite Ht.
  - rewrite DB_Prepare_eq.
    destruct (prepare_outcome_store drv (DBPrepareContext (DB_sql db))
                (DB_Mapper db) (DB_enableTrace db) q w) as [_ ->].
    by rewrite Hr.
  - rewrite Tx_Prepare_eq.
    destruct (prepare_outcome_store drv (TxPrepareContext (Tx_sql tx))
                (Tx_Mapper tx) (Tx_enableTrace tx) q w) as [-> _].
    by rewrite Ht.
  - rewrite Tx_Prepare_eq.
    destruct (prepare_outcome_store drv (TxPrepareContext (Tx_sql tx))
                (Tx_Mapper tx) (Tx_enableTrace tx) q w) as [_ ->].
    by rewrite Hr.
Qed.

Lemma segments_around_bare (pre post : string) :
  boundary post ->
  segments (pre +:+ String "?" post) = segments pre ++ Text "?" :: segments post /\
  segments (pre +:+ post) = segments pre ++ segments post.
Proof.
  intros Hpost. split.
  - rewrite segments_app by done. by rewrite segments_bare.
  - by apply segments_app.
Qed.

(** C8. What the scan recognizes is tokens only, and the text outside
    them is kept: the matches are question marks followed by word
    characters and, put back between the text, give the template.  A
    question mark that no word character follows stays where it is in
    the rewritten template and adds neither a placeholder, nor a
    name-table entry, nor a bound argument: the template binds as it
    would without that question mark. *)
Theorem C8_bare_question_mark (pre post : string) (m : gmap string any) :
  boundary post ->
  let q := pre +:+ String "?" post in
  Forall is_token (matches q) /\
  unscan (segments q) = q /\
  segments q = segments pre ++ Text "?" :: segments post /\
  rewritten q = rewritten pre +:+ String "?" (rewritten post) /\
  placeholders q = placeholders (pre +:+ post) /\
  name_table q = name_table (pre +:+ post) /\
  exists args err,
    MapToSlice q (PtrTo (Some (AMap m)))
      = Done (rewritten pre +:+ String "?" (rewritten post), args, err) /\
    MapToSlice (pre +:+ post) (PtrTo (Some (AMap m)))
      = Done (rewritten pre +:+ rewritten post, args, err).
Proof.
  intros Hpost q.
  destruct (segments_around_bare pre post Hpost) as [Hq Hpp].
  assert (Hr : rewritten q = rewritten pre +:+ String "?" (rewritten post)).
  { unfold rewritten, q. by rewrite Hq, render_app. }
  assert (Hn : placeholders q = placeholders (pre +:+ post)).
  { unfold placeholders, matches, q. by rewrite Hq, Hpp, !matches_of_app. }
  split; [apply segments_match_shape|].
  split; [apply unscan_segments|].
  split; [done|]. split; [done|]. split; [done|].
  split; [unfold name_table; by rewrite Hn|].
  eexists _, _. rewrite !MapToSlice_eq, Hr, Hn. split; [done|].
  unfold rewritten. by rewrite Hpp, render_app.
Qed.

Lemma bind_names_spec (m : gmap string any) (ns : list string)
    (args : list any) (err : option error) :
  bind_names m ns (args, err) =
  (args ++ omap (fun n => m !! n) ns,
   match last (missing_names m ns) with
   | Some n => Some (Errorf_missing n)
   | None => err
   end).
Proof.
  revert args err. induction ns as [|n ns IH]; intros args err.
  - simpl. by rewrite app_nil_r.
  - unfold bind_names in *. csimpl. unfold missing_names in *.
    destruct (m !! n) as [x|] eqn:Hn; simpl.
    + rewrite IH, <- app_assoc. simpl.
      by rewrite filter_cons_False by congruence.
    + rewrite IH.
      rewrite filter_cons_True by done. rewrite last_cons.
      by destruct (last _).
Qed.

Lemma MapToSlice_missing (q : string) (m : gmap string any) (n : string) :
  last (missing_names m (placeholders q)) = Some n ->
  MapToSlice q (PtrTo (Some (AMap m))) =
  Done (rewritten q,
        omap (fun k => m !! k) (placeholders q),
        Some (Errorf_missing n)).
Proof.
  intros Hlast. by rewrite MapToSlice_eq, bind_names_spec, Hlast.
Qed.

(** C9. When the map lacks the entry of one placeholder or more,
    [MapToSlice] still returns the template with a marker over every
    placeholder; its argument list holds the values of the placeholders
    that have an entry, in template order, the missing ones left out;
    and its error names the last missing placeholder of the template. *)
Theorem C9_MapToSlice_missing_key (q : string) (m : gmap string any) (n : string) :
  last (missing_names m (placeholders q)) = Some n ->
  MapToSlice q (PtrTo (Some (AMap m))) =
  Done (rewritten q,
        omap (fun k => m !! k) (placeholders q),
        Some (Errorf_missing n)).
Proof.
  intros Hlast. by rewrite MapToSlice_eq, bind_names_spec, Hlast.
Qed.

(** C7. Preparing one template on a connection and then on a
    transaction gives two handles whose name tables hold the same
    entries (the table of the template, and the driver receives the
    same rewritten template from both) at two different locations of
    the store: writing to either table leaves the other as it was. *)
Theorem C7_independent_name_tables (drv : driver) (db : DB) (tx : Tx)
    (q : string) (w w1 w2 : world) (p1 p2 : loc) :
  DB_Prepare drv db q w = (Done (Some p1, None), w1) ->
  Tx_Prepare drv tx q w1 = (Done (Some p2, None), w2) ->
  exists s1 s2,
    stmts w2 !! p1 = Some s1 /\ stmts w2 !! p2 = Some s2 /\
    tables w2 !! Stmt_names s1 = Some (name_table q) /\
    tables w2 !! Stmt_names s2 = Some (name_table q) /\
    Stmt_names s1 <> Stmt_names s2 /\
    DriverCall (DBPrepareContext (DB_sql db) (rewritten q)) ∈ log w2 /\
    DriverCall (TxPrepareContext (Tx_sql tx) (rewritten q)) ∈ log w2 /\
    (forall t, ((let* _ := store_table (Stmt_names s1) t in
                 load_table (Stmt_names s2)) w2).1 = Done (name_table q)) /\
    (forall t, ((let* _ := store_table (Stmt_names s2) t in
                 load_table (Stmt_names s1)) w2).1 = Done (name_table q)).
Proof.
  rewrite DB_Prepare_eq, Tx_Prepare_eq. intros H1 H2.
  assert (L1 : driver_calls (log w1) = driver_calls (log w) ++
                 [DriverCall (DBPrepareContext (DB_sql db) (rewritten q))]).
  { pose proof (prepare_outcome_store drv (DBPrepareContext (DB_sql db))
                  (DB_Mapper db) (DB_enableTrace db) q w) as [_ L].
    by rewrite H1 in L. }
  assert (L2 : driver_calls (log w2) = driver_calls (log w1) ++
                 [DriverCall (TxPrepareContext (Tx_sql tx) (rewritten q))]).
  { pose proof (prepare_outcome_store drv (TxPrepareContext (Tx_sql tx))
                  (Tx_Mapper tx) (Tx_enableTrace tx) q w1) as [_ L].
    by rewrite H2 in L. }
  apply prepare_outcome_handle in H1 as (-> & T1 & stmt1 & S1).
  apply prepare_outcome_handle in H2 as (-> & T2 & stmt2 & S2).
  rewrite T1 in T2. rewrite S1 in S2.
  eexists _, _. split; [|split].
  { rewrite S2, <- app_assoc. apply list_lookup_middle. done. }
  { rewrite S2, S1. apply list_lookup_middle. done. }
  simpl. rewrite T1, length_app. simpl.
  assert (Ha : tables w2 !! length (tables w) = Some (name_table q)).
  { rewrite T2, <- app_assoc. by apply list_lookup_middle. }
  assert (Hb : tables w2 !! (length (tables w) + 1) = Some (name_table q)).
  { rewrite T2. apply list_lookup_middle. rewrite length_app. simpl. lia. }
  split; [done|]. split; [done|]. split; [lia|].
  split.
  { assert (H : DriverCall (DBPrepareContext (DB_sql db) (rewritten q))
                ∈ driver_calls (log w2)) by (rewrite L2, L1; set_solver).
    unfold driver_calls in H. by apply list_elem_of_filter in H as [_ ?]. }
  split.
  { assert (H : DriverCall (TxPrepareContext (Tx_sql tx) (rewritten q))
                ∈ driver_calls (log w2)) by (rewrite L2; set_solver).
    unfold driver_calls in H. by apply list_elem_of_filter in H as [_ ?]. }
  split; intros t; unfold bind, store_table, load_table; simpl.
  - rewrite list_lookup_insert_ne by lia. by rewrite Hb.
  - rewrite list_lookup_insert_ne by lia. by rewrite Ha.
Qed.

(** C10. [Tx.Stmt] hands back the pointer it was given: the same
    [Stmt] object, with the driver statement it already had. *)
Theorem C10_Tx_Stmt_identity (tx : Tx) (stmt : option loc) :
  Tx_Stmt tx stmt = stmt.
Proof. reflexivity. Qed.

Lemma not_map_pointer_true (x : iface) :
  ~ is_map_pointer x -> not_map_pointer (reflect.ValueOf x) = true.
Proof.
  intros H. destruct x as [| | | |[[m| |]|]]; try done.
  exfalso. apply H. by exists m.
Qed.

Lemma not_struct_pointer_true (x : iface) :
  ~ is_struct_pointer x -> not_struct_pointer (reflect.ValueOf x) = true.
Proof.
  intros H. destruct x as [| | | |[[|fs|]|]]; try done.
  exfalso. apply H. by exists fs.
Qed.

Lemma MapToSlice_kind (q : string) (x : iface) :
  ~ is_map_pointer x -> MapToSlice q x = Done ("", [], Some ErrNoMapPointer).
Proof.
  intros H%not_map_pointer_true. unfold MapToSlice.
  unfold not_map_pointer in H. by rewrite H.
Qed.

Lemma StructToSlice_kind (q : string) (x : iface) :
  ~ is_struct_pointer x ->
  StructToSlice q x = Done ("", [], Some ErrNoStructPointer).
Proof.
  intros H%not_struct_pointer_true. unfold StructToSlice.
  unfold not_struct_pointer in H. by rewrite H.
Qed.

(** C4. An argument that is not a pointer to a map makes every map
    binder return its kind error, and one that is not a pointer to a
    struct makes every struct binder return its kind error: the two
    ad-hoc binders return an empty template and no argument, and every
    facade method leaves the store as it found it, so no span is
    opened, no table is read and no driver call is made. *)
Theorem C4_invalid_argument_kind (drv : driver)
    (range : gmap string nat -> list (string * nat))
    (db : DB) (tx : Tx) (s : option loc) (q : string) (x : iface) (w : world) :
  (~ is_map_pointer x ->
     MapToSlice q x = Done ("", [], Some ErrNoMapPointer) /\
     DB_QueryMap drv db q x w = (Done (None, Some ErrNoMapPointer), w) /\
     DB_QueryRowMap drv db q x w = (Done (mkRow None (Some ErrNoMapPointer)), w) /\
     DB_ExecMap drv db q x w = (Done (None, Some ErrNoMapPointer), w) /\
     Tx_QueryMap drv tx q x w = (Done (None, Some ErrNoMapPointer), w) /\
     Tx_QueryRowMap drv tx q x w = (Done (mkRow None (Some ErrNoMapPointer)), w) /\
     Tx_ExecMap drv tx q x w = (Done (None, Some ErrNoMapPointer), w) /\
     Stmt_ExecMap drv range s x w = (Done (None, Some map_kind_error), w) /\
     Stmt_QueryMap drv range s x w = (Done (None, Some map_kind_error), w) /\
     Stmt_QueryRowMap drv range s x w
       = (Done (mkRow None (Some map_kind_error)), w)) /\
  (~ is_struct_pointer x ->
     StructToSlice q x = Done ("", [], Some ErrNoStructPointer) /\
     DB_QueryStruct drv db q x w = (Done (None, Some ErrNoStructPointer), w) /\
     DB_QueryRowStruct drv db q x w
       = (Done (mkRow None (Some ErrNoStructPointer)), w) /\
     DB_ExecStruct drv db q x w = (Done (None, Some ErrNoStructPointer), w) /\
     Tx_QueryStruct drv tx q x w = (Done (None, Some ErrNoStructPointer), w) /\
     Tx_QueryRowStruct drv tx q x w
       = (Done (mkRow None (Some ErrNoStructPointer)), w) /\
     Tx_ExecStruct drv tx q x w = (Done (None, Some ErrNoStructPointer), w) /\
     Stmt_ExecStruct drv range s x w = (Done (None, Some map_kind_error), w) /\
     Stmt_QueryStruct drv range s x w = (Done (None, Some map_kind_error), w) /\
     Stmt_QueryRowStruct drv range s x w
       = (Done (mkRow None (Some struct_kind_error)), w)).
Proof.
  split; intros H.
  - pose proof (MapToSlice_kind q x H) as Hm.
    pose proof (not_map_pointer_true x H) as Hk.
    unfold DB_QueryMap, DB_QueryRowMap, DB_ExecMap, Tx_QueryMap,
      Tx_QueryRowMap, Tx_ExecMap, Stmt_ExecMap, Stmt_QueryMap,
      Stmt_QueryRowMap, bind, lift.
    rewrite Hm, Hk. by repeat split.
  - pose proof (StructToSlice_kind q x H) as Hm.
    pose proof (not_struct_pointer_true x H) as Hk.
    unfold DB_QueryStruct, DB_QueryRowStruct, DB_ExecStruct, Tx_QueryStruct,
      Tx_QueryRowStruct, Tx_ExecStruct, Stmt_ExecStruct, Stmt_QueryStruct,
      Stmt_QueryRowStruct, bind, lift.
    rewrite Hm, Hk. by repeat split.
Qed.

(** The ad-hoc map binders of [DB] and [Tx] return the error of
    [MapToSlice] and leave the store alone: no driver call is made. *)
Lemma map_binders_missing_key (drv : driver) (db : DB) (tx : Tx)
    (q : string) (m : gmap string any) (n : string) (w : world) :
  last (missing_names m (placeholders q)) = Some n ->
  let mp := PtrTo (Some (AMap m)) in
  let err := Some (Errorf_missing n) in
  DB_QueryMap drv db q mp w = (Done (None, err), w) /\
  DB_QueryRowMap drv db q mp w = (Done (mkRow None err), w) /\
  DB_ExecMap drv db q mp w = (Done (None, err), w) /\
  Tx_QueryMap drv tx q mp w = (Done (None, err), w) /\
  Tx_QueryRowMap drv tx q mp w = (Done (mkRow None err), w) /\
  Tx_ExecMap drv tx q mp w = (Done (None, err), w).
Proof.
  intros Hn mp err. pose proof (MapToSlice_missing q m n Hn) as Hm.
  unfold DB_QueryMap, DB_QueryRowMap, DB_ExecMap, Tx_QueryMap,
    Tx_QueryRowMap, Tx_ExecMap, bind, lift.
  fold mp in Hm. rewrite Hm. by repeat split.
Qed.

Lemma bind_range_panics (get : string -> res any) (kis : list (string * nat))
    (args : list any) (k : string) (i : nat) (p : panic) :
  (k, i) ∈ kis -> get k = Panic p ->
  exists p', bind_range get kis args = Panic p'.
Proof.
  intros Hin Hk. revert args.
  induction kis as [|[k0 i0] kis IH]; intros args; [by apply elem_of_nil in Hin|].
  simpl. destruct (get k0) as [x|p0] eqn:H0; [|eauto].
  destruct (decide (i0 < length args)); [|eauto].
  apply elem_of_cons in Hin as [[= -> ->]|Hin]; [congruence|].
  by apply IH.
Qed.

(** C3, on the prepared-statement path.  A statement whose name table
    holds [k], bound to a map without [k]: [Stmt.ExecMap],
    [Stmt.QueryMap] and [Stmt.QueryRowMap] panic, in whatever order the
    table is visited, instead of returning an error that names [k].
    The store is as before, so no driver call has been made. *)
Theorem C3_Stmt_map_missing_key_panics (drv : driver)
    (range : gmap string nat -> list (string * nat))
    (s : loc) (st : Stmt) (tbl : gmap string nat) (m : gmap string any)
    (k : string) (i : nat) (w : world) :
  (forall t, range t ≡ₚ map_to_list t) ->
  stmts w !! s = Some st ->
  tables w !! Stmt_names st = Some tbl ->
  tbl !! k = Some i ->
  m !! k = None ->
  exists p,
    Stmt_ExecMap drv range (Some s) (PtrTo (Some (AMap m))) w = (Panic p, w) /\
    Stmt_QueryMap drv range (Some s) (PtrTo (Some (AMap m))) w = (Panic p, w) /\
    Stmt_QueryRowMap drv range (Some s) (PtrTo (Some (AMap m))) w = (Panic p, w).
Proof.
  intros Hperm Hs Ht Hk Hm.
  assert (Hin : (k, i) ∈ range tbl).
  { rewrite Hperm. by apply elem_of_map_to_list. }
  set (vv := reflect.ValueOf (PtrTo (Some (AMap m)))).
  assert (Hget : map_get vv k = Panic PanicInterfaceOnZeroValue).
  { unfold map_get. simpl. by rewrite Hm. }
  destruct (bind_range_panics (map_get vv) (range tbl)
              (replicate (size tbl) (Raw VNil)) k i _ Hin Hget) as [p Hp].
  exists p.
  unfold Stmt_ExecMap, Stmt_QueryMap, Stmt_QueryRowMap, Stmt_bind, bind,
    load_stmt, load_table, lift.
  fold vv. simpl. rewrite Hs. simpl. rewrite Ht, Hp. done.
Qed.

Lemma failing_then_converting_bind (e : error) (v : value) :
  StructToSlice "insert into t (a, b) values (?A, ?B)"
                (failing_then_converting e v)
  = Done ("insert into t (a, b) values (?, ?)", [Raw v], None).
Proof. unfold failing_then_converting. rewrite StructToSlice_eq. by vm_compute. Qed.

(** C5, at the failing input.  Field [A] implements the conversion and
    its conversion fails with [e]; field [B], bound after it, converts
    to [v].  [StructToSlice] returns no error: the success of [B] has
    overwritten the failure of [A].  [DB.ExecStruct] therefore calls
    the driver, with two markers and the single argument [v]. *)
Theorem C5_conversion_failure_is_overwritten (drv : driver) (db : DB)
    (w : world) (e : error) (v : value) :
  StructToSlice "insert into t (a, b) values (?A, ?B)"
                (failing_then_converting e v)
    = Done ("insert into t (a, b) values (?, ?)", [Raw v], None) /\
  driver_calls (log (DB_ExecStruct drv db "insert into t (a, b) values (?A, ?B)"
                       (failing_then_converting e v) w).2)
    = driver_calls (log w) ++
      [DriverCall (DBExecContext (DB_sql db)
                     "insert into t (a, b) values (?, ?)" [Raw v])].
Proof.
  split; [apply failing_then_converting_bind|].
  unfold DB_ExecStruct, bind, lift. rewrite failing_then_converting_bind.
  unfold DB_Exec, traced, driver_call, bind, emit, ret.
  destruct (DB_enableTrace db); simpl;
    rewrite ?driver_calls_app, ?driver_calls_start, ?driver_calls_finish,
      ?driver_calls_call, ?app_nil_r; done.
Qed.

(** C2, at the failing input.  With the struct of C5, [StructToSlice]
    reports success and returns one argument for a template that holds
    two placeholders, rewritten to two markers; the value at position 0
    is the one of [B], the identifier recorded at ordinal 1. *)
Theorem C2_StructToSlice_short_argument_list (e : error) (v : value) :
  let q := "insert into t (a, b) values (?A, ?B)" in
  exists args,
    StructToSlice q (failing_then_converting e v) = Done (rewritten q, args, None) /\
    placeholders q = ["A"; "B"] /\
    length args = 1 /\
    args !! 0 = Some (Raw v).
Proof.
  intros q. exists [Raw v]. split; [|done].
  unfold q. by rewrite failing_then_converting_bind.
Qed.

(** ** The name table and the prepared-statement binders *)

Lemma record_names_counter (ns : list string) (t : gmap string nat) (i : nat) :
  (record_names ns (t, i)).2 = i + length ns.
Proof.
  revert t i. induction ns as [|n ns IH]; intros t i; simpl; [lia|].
  unfold record_names in *. simpl. rewrite IH. lia.
Qed.

(** The table after the identifiers [ns]: an identifier of [ns] is at
    the ordinal of its last occurrence, and the others are as before. *)
Lemma record_names_lookup (ns : list string) (t : gmap string nat) (i : nat)
    (k : string) (j : nat) :
  (record_names ns (t, i)).1 !! k = Some j <->
  (exists d, j = i + d /\ ns !! d = Some k /\ k ∉ drop (S d) ns) \/
  (t !! k = Some j /\ k ∉ ns).
Proof.
  revert t i. induction ns as [|n ns IH]; intros t i.
  - simpl. split.
    + intros H. right. split; [done | apply not_elem_of_nil].
    + intros [(d & _ & Hd & _)|[H _]]; [done | done].
  - change (record_names (n :: ns) (t, i))
      with (record_names ns (<[n := i]> t, i + 1)).
    rewrite IH. split.
    + intros [(d & -> & Hd & Hnot)|[Hk Hnot]].
      * left. exists (S d). split; [lia|]. by split.
      * destruct (decide (k = n)) as [->|Hne].
        -- rewrite lookup_insert_eq in Hk. injection Hk as <-.
           left. exists 0. split; [lia|]. by split.
        -- rewrite lookup_insert_ne in Hk by done.
           right. split; [done|]. by apply not_elem_of_cons.
    + intros [(d & -> & Hd & Hnot)|[Hk Hnot]].
      * destruct d as [|d].
        -- simpl in Hd. injection Hd as ->. simpl in Hnot.
           right. split; [|done]. rewrite lookup_insert_eq. f_equal. lia.
        -- left. exists d. split; [lia|]. by split.
      * apply not_elem_of_cons in Hnot as [Hne Hnot].
        right. split; [|done]. by rewrite lookup_insert_ne.
Qed.

(** An identifier is in the name table at the ordinal of its last
    occurrence in the template. *)
Lemma name_table_last_occurrence (q k : string) (j : nat) :
  name_table q !! k = Some j <->
  placeholders q !! j = Some k /\ k ∉ drop (S j) (placeholders q).
Proof.
  unfold name_table. rewrite record_names_lookup. split.
  - by intros [(d & -> & Hd & Hnot)|[H _]].
  - intros [Hj Hnot]. left. by exists j.
Qed.

Lemma record_names_size (ns : list string) (t : gmap string nat) (i : nat) :
  size (record_names ns (t, i)).1 <= size t + length ns.
Proof.
  revert t i. induction ns as [|n ns IH]; intros t i; [simpl; lia|].
  change (record_names (n :: ns) (t, i))
    with (record_names ns (<[n := i]> t, i + 1)).
  etrans; [apply IH|]. rewrite map_size_insert. simpl.
  destruct (t !! n); simpl; lia.
Qed.

Lemma name_table_size (q : string) :
  size (name_table q) <= length (placeholders q).
Proof.
  unfold name_table.
  etrans; [apply record_names_size|]. by rewrite map_size_empty.
Qed.

Lemma name_table_inj (q k k' : string) (j : nat) :
  name_table q !! k = Some j -> name_table q !! k' = Some j -> k = k'.
Proof.
  rewrite !name_table_last_occurrence. intros [H _] [H' _]. congruence.
Qed.

Lemma name_table_last (q : string) (ns : list string) (n : string) :
  placeholders q = ns ++ [n] -> name_table q !! n = Some (length ns).
Proof.
  intros Hq. apply name_table_last_occurrence. rewrite Hq. split.
  - by apply list_lookup_middle.
  - rewrite drop_ge by (rewrite length_app; simpl; lia). apply not_elem_of_nil.
Qed.

Lemma name_table_NoDup (q : string) (kis : list (string * nat)) :
  kis ≡ₚ map_to_list (name_table q) -> NoDup (kis.*2).
Proof.
  intros Hp. rewrite Hp.
  apply NoDup_fmap_2_strong; [|apply NoDup_map_to_list].
  intros [k i] [k' i'] Hin Hin' Heq. simpl in Heq. subst i'.
  apply elem_of_map_to_list in Hin, Hin'.
  by rewrite (name_table_inj q k k' i).
Qed.

Lemma bind_range_untouched (get : string -> res any)
    (kis : list (string * nat)) (args0 args : list any) (j : nat) :
  bind_range get kis args0 = Done args -> j ∉ kis.*2 ->
  args !! j = args0 !! j.
Proof.
  revert args0. induction kis as [|[k i] kis IH]; intros args0; simpl.
  - by intros [= ->].
  - destruct (get k) as [x|]; [|done].
    destruct (decide (i < length args0)); [|done].
    intros H Hj. apply not_elem_of_cons in Hj as [Hne Hj].
    rewrite (IH _ H Hj). simpl in Hne. by apply list_lookup_insert_ne.
Qed.

Lemma bind_range_done (get : string -> res any)
    (kis : list (string * nat)) (args0 args : list any) :
  bind_range get kis args0 = Done args ->
  length args = length args0 /\
  Forall (fun ki => ki.2 < length args0) kis.
Proof.
  revert args0. induction kis as [|[k i] kis IH]; intros args0; simpl.
  - by intros [= ->].
  - destruct (get k) as [x|]; [|done].
    destruct (decide (i < length args0)); [|done].
    intros [Hl Hf]%IH. rewrite length_insert in Hl, Hf. split; [done|].
    by constructor.
Qed.

Lemma bind_range_lookup (get : string -> res any)
    (kis : list (string * nat)) (args0 args : list any) (k : string) (i : nat) :
  NoDup (kis.*2) -> bind_range get kis args0 = Done args -> (k, i) ∈ kis ->
  exists x, get k = Done x /\ args !! i = Some x.
Proof.
  revert args0. induction kis as [|[k0 i0] kis IH]; intros args0 Hnd; simpl.
  - intros _ Hin. by apply elem_of_nil in Hin.
  - apply NoDup_cons in Hnd as [Hi0 Hnd]. simpl in Hi0.
    destruct (get k0) as [x|] eqn:Hget; [|done].
    destruct (decide (i0 < length args0)); [|done].
    intros H [[= -> ->]|Hin]%elem_of_cons.
    + exists x. split; [done|].
      rewrite (bind_range_untouched _ _ _ _ _ H Hi0).
      by apply list_lookup_insert_eq.
    + by apply (IH _ Hnd H).
Qed.

(** The part of C2 that holds, for [MapToSlice]: when it returns no
    error there is one argument per placeholder occurrence, and the
    argument at position [i] is the map entry of the [i]-th
    placeholder. *)
Lemma MapToSlice_bound (q : string) (m : gmap string any)
    (q' : string) (args : list any) :
  MapToSlice q (PtrTo (Some (AMap m))) = Done (q', args, None) ->
  q' = rewritten q /\
  length args = length (placeholders q) /\
  forall i n, placeholders q !! i = Some n -> args !! i = m !! n /\ is_Some (m !! n).
Proof.
  rewrite MapToSlice_eq, bind_names_spec. simpl.
  destruct (last (missing_names m (placeholders q))) as [n|] eqn:Hl; [done|].
  apply last_None in Hl. intros [= <- <-]. split; [done|].
  assert (Hall : Forall (fun n => is_Some (m !! n)) (placeholders q)).
  { apply Forall_forall. intros n Hn.
    destruct (m !! n) as [x|] eqn:Hm; [by eexists|].
    assert (Hin : n ∈ missing_names m (placeholders q))
      by (by apply list_elem_of_filter).
    rewrite Hl in Hin. by apply elem_of_nil in Hin. }
  clear Hl. induction Hall as [|n ns [x Hx] Hall IH]; [done|].
  csimpl. rewrite Hx. simpl. destruct IH as [IHl IHi]. split; [by rewrite IHl|].
  intros [|i] n'; simpl.
  - intros [= <-]. by rewrite Hx.
  - apply IHi.
Qed.

(** The part of C2 that holds, for the binders of a prepared statement:
    when the loop over the name table of [q] ends without a panic, in
    whatever order it ran, there is one argument per placeholder
    occurrence, and the argument at the ordinal of an identifier is the
    value looked up for it. *)
Lemma Stmt_bind_bound (range : gmap string nat -> list (string * nat))
    (s : loc) (st : Stmt) (q : string) (get : string -> res any)
    (w w' : world) (args : list any) :
  (forall t, range t ≡ₚ map_to_list t) ->
  stmts w !! s = Some st ->
  tables w !! Stmt_names st = Some (name_table q) ->
  Stmt_bind range (Some s) get w = (Done args, w') ->
  w' = w /\
  length args = length (placeholders q) /\
  forall k i, name_table q !! k = Some i ->
              exists x, get k = Done x /\ args !! i = Some x.
Proof.
  intros Hperm Hs Ht. unfold Stmt_bind, bind, load_stmt, load_table, lift.
  simpl. rewrite Hs. simpl. rewrite Ht.
  destruct (bind_range _ _ _) as [args'|] eqn:Hb; [|done].
  intros [= -> <-]. split; [done|].
  destruct (bind_range_done _ _ _ _ Hb) as [Hl Hf].
  rewrite length_replicate in Hl, Hf.
  split.
  - rewrite Hl. apply Nat.le_antisymm; [apply name_table_size|].
    destruct (placeholders q) as [|n0 ns0] eqn:Hq using rev_ind; [simpl; lia|].
    clear IHns0.
    pose proof (name_table_last q ns0 n0 Hq) as Hlast.
    assert (Hin : (n0, length ns0) ∈ range (name_table q)).
    { rewrite Hperm. by apply elem_of_map_to_list. }
    rewrite Forall_forall in Hf. apply Hf in Hin. simpl in Hin.
    rewrite length_app. simpl. lia.
  - intros k i Hk.
    eapply bind_range_lookup; [|exact Hb|].
    + by apply (name_table_NoDup q).
    + rewrite Hperm. by apply elem_of_map_to_list.
Qed.

(** ** The theorems at sample inputs *)

Lemma C1_rewrite_a_b_a_witness :
  ~ has_token "select " /\ boundary ", " /\
  ReplaceAllStringFunc "select ?a, ?b, ?a from t" prepare_repl (∅, 0)
    = Done ("select ?, ?, ? from t", ({[ "a" := 2; "b" := 1 ]}, 3)).
Proof.
  split; [by apply no_token_test|]. split; [reflexivity|].
  exact (proj1 (C1_rewrite_a_b_a ok_driver sample_db sample_tx empty_world
                  "select " ", " ", " " from t"
                  (no_token_test "select " eq_refl)
                  (no_token_test ", " eq_refl)
                  (no_token_test ", " eq_refl)
                  (no_token_test " from t" eq_refl)
                  eq_refl eq_refl eq_refl)).
Defined.

(** C1 as first stated fails for [StructToSlice]: on a template with
    the placeholders [?a], [?b], [?a] it panics instead of returning
    the template with three markers, here for a struct that does have
    fields named [a] and [b]. *)
Lemma C1_StructToSlice_counterexample :
  let st := PtrTo (Some (AStruct {[ "a" := Raw (VInt 1); "b" := Raw (VInt 2) ]})) in
  StructToSlice "select ?a, ?b, ?a" st = Panic PanicInterfaceOnUnexported /\
  ~ exists args err,
      StructToSlice "select ?a, ?b, ?a" st = Done ("select ?, ?, ?", args, err).
Proof.
  intros st.
  assert (H : StructToSlice "select ?a, ?b, ?a" st = Panic PanicInterfaceOnUnexported)
    by (unfold st; rewrite StructToSlice_eq; by vm_compute).
  split; [exact H|]. intros (args & err & H'). rewrite H in H'. discriminate H'.
Qed.

Lemma C6_no_placeholder_identity_witness :
  ~ has_token "select 1 from t where x = ? and y = '?'" /\
  MapToSlice "select 1 from t where x = ? and y = '?'"
             (PtrTo (Some (AMap {[ "x" := Raw (VInt 1) ]})))
    = Done ("select 1 from t where x = ? and y = '?'", [], None).
Proof.
  split; [by apply no_token_test|].
  destruct (C6_no_placeholder_identity ok_driver sample_db sample_tx
              empty_world "select 1 from t where x = ? and y = '?'"
              {[ "x" := Raw (VInt 1) ]} ∅) as [H _].
  - by apply no_token_test.
  - exact H.
Defined.

Lemma C7_independent_name_tables_witness :
  exists s1 s2 w2,
    stmts w2 !! 0 = Some s1 /\ stmts w2 !! 1 = Some s2 /\
    tables w2 !! Stmt_names s1 = Some (name_table "select ?a, ?b") /\
    tables w2 !! Stmt_names s2 = Some (name_table "select ?a, ?b") /\
    Stmt_names s1 <> Stmt_names s2.
Proof.
  set (q := "select ?a, ?b").
  set (w1 := (DB_Prepare ok_driver sample_db q empty_world).2).
  set (w2 := (Tx_Prepare ok_driver sample_tx q w1).2).
  destruct (C7_independent_name_tables ok_driver sample_db sample_tx q
              empty_world w1 w2 0 1) as (s1 & s2 & H1 & H2 & H3 & H4 & H5 & _).
  - reflexivity.
  - reflexivity.
  - exists s1, s2, w2. auto.
Defined.

Lemma C8_bare_question_mark_witness :
  boundary " and z = ?b" /\
  rewritten "x = ?a and y = ? and z = ?b" = "x = ? and y = ? and z = ?" /\
  placeholders "x = ?a and y = ? and z = ?b"
    = placeholders "x = ?a and y =  and z = ?b".
Proof.
  split; [reflexivity|].
  destruct (C8_bare_question_mark "x = ?a and y = " " and z = ?b" ∅)
    as (_ & _ & _ & Hr & Hn & _); [reflexivity|].
  split; [exact Hr | exact Hn].
Defined.

Lemma C9_MapToSlice_missing_key_witness :
  MapToSlice "x = ?a and y = ?b and z = ?c ?d"
             (PtrTo (Some (AMap {[ "b" := Raw (VInt 1); "d" := Raw (VInt 2) ]})))
  = Done ("x = ? and y = ? and z = ? ?",
          [Raw (VInt 1); Raw (VInt 2)],
          Some (errorString "map key c is missing")).
Proof.
  exact (C9_MapToSlice_missing_key "x = ?a and y = ?b and z = ?c ?d"
           {[ "b" := Raw (VInt 1); "d" := Raw (VInt 2) ]} "c" eq_refl).
Defined.

Lemma C4_invalid_argument_kind_witness :
  DB_ExecMap ok_driver sample_db "insert into t (a) values (?a)"
             (MapOf {[ "a" := Raw (VInt 1) ]}) empty_world
    = (Done (None, Some ErrNoMapPointer), empty_world) /\
  Stmt_QueryRowStruct ok_driver range_list None (PtrTo None) empty_world
    = (Done (mkRow None (Some struct_kind_error)), empty_world).
Proof.
  destruct (C4_invalid_argument_kind ok_driver range_list sample_db sample_tx
              None "insert into t (a) values (?a)"
              (MapOf {[ "a" := Raw (VInt 1) ]}) empty_world) as [Hm _].
  destruct (C4_invalid_argument_kind ok_driver range_list sample_db sample_tx
              None "" (PtrTo None) empty_world) as [_ Hs].
  split.
  - apply Hm. intros [m Hx]. discriminate Hx.
  - apply Hs. intros [fs Hx]. discriminate Hx.
Defined.

Lemma C3_Stmt_map_missing_key_panics_witness :
  exists p,
    Stmt_ExecMap ok_driver range_list (Some 0) (PtrTo (Some (AMap ∅)))
                 (DB_Prepare ok_driver sample_db "select ?a" empty_world).2
    = (Panic p, (DB_Prepare ok_driver sample_db "select ?a" empty_world).2).
Proof.
  destruct (C3_Stmt_map_missing_key_panics ok_driver range_list 0
              (mkStmt (Some 7) 0 0 true) {[ "a" := 0 ]} ∅ "a" 0
              (DB_Prepare ok_driver sample_db "select ?a" empty_world).2)
    as (p & H & _).
  - intros t. reflexivity.
  - reflexivity.
  - reflexivity.
  - reflexivity.
  - reflexivity.
  - exists p. exact H.
Defined.

(** ** Further properties of the rewriting *)

Lemma render_cons_text (c : ascii) (segs : list segment) :
  render (Text c :: segs) = String c (render segs).
Proof. reflexivity. Qed.

Lemma render_cons_match (m : string) (segs : list segment) :
  render (Match m :: segs) = String "?" (render segs).
Proof. reflexivity. Qed.

Lemma boundary_rewritten (t : string) : boundary t -> boundary (rewritten t).
Proof.
  destruct t as [|c t]; [done|]. simpl. intros Hc.
  unfold rewritten. rewrite segments_cons.
  destruct (Ascii.eqb_spec c "?") as [->|_]; [|by rewrite render_cons_text].
  destruct (span_word t) as [[|c' w] r]; by rewrite ?render_cons_text, ?render_cons_match.
Qed.

Lemma has_tokenb_mark (t : string) :
  boundary t -> has_tokenb (String "?" t) = has_tokenb t.
Proof. destruct t as [|c t]; simpl; [done|]. by intros ->. Qed.

Lemma rewritten_no_token (q : string) : has_tokenb (rewritten q) = false.
Proof.
  unfold rewritten. pattern q, (segments q). apply segments_ind.
  - done.
  - intros c t Hc IH. rewrite render_cons_text. simpl.
    destruct (Ascii.eqb_spec c "?"); [done|]. by rewrite IH.
  - intros t Ht IH. rewrite render_cons_text.
    rewrite has_tokenb_mark; [done|]. by apply boundary_rewritten.
  - intros w r _ _ Hr IH. rewrite render_cons_match.
    rewrite has_tokenb_mark; [done|]. by apply boundary_rewritten.
Qed.

(** X4. The rewritten template holds no named placeholder: rewriting it
    again returns it unchanged, with an empty name table, and
    [MapToSlice] binds no argument to it. *)
Theorem X4_rewriting_is_idempotent (q : string) (m : gmap string any) :
  ~ has_token (rewritten q) /\
  rewritten (rewritten q) = rewritten q /\
  name_table (rewritten q) = ∅ /\
  MapToSlice (rewritten q) (PtrTo (Some (AMap m))) = Done (rewritten q, [], None).
Proof.
  assert (H : ~ has_token (rewritten q)) by apply no_token_test, rewritten_no_token.
  destruct (no_token_rewrite _ H) as (Hr & Hp & Ht).
  split; [done|]. split; [done|]. split; [done|].
  by rewrite MapToSlice_eq, Hr, Hp.
Qed.

Lemma marks_app (s t : string) : marks (s +:+ t) = marks s + marks t.
Proof. induction s as [|c s IH]; simpl; [done|]. rewrite IH. lia. Qed.

Lemma marks_all_word (w : string) : all_word w = true -> marks w = 0.
Proof.
  induction w as [|c w IH]; simpl; [done|].
  intros [Hc Hw]%andb_prop. rewrite IH by done.
  destruct (Ascii.eqb_spec c "?") as [->|_]; [done | done].
Qed.

Lemma marks_render (segs : list segment) :
  marks (render segs) = length (matches_of segs) + bare_marks_of segs.
Proof.
  induction segs as [|[c|m] segs IH]; [done| |].
  - rewrite render_cons_text. simpl. fold (matches_of segs). rewrite IH. lia.
  - rewrite render_cons_match. simpl. fold (matches_of segs). rewrite IH. lia.
Qed.

Lemma marks_rewritten (q : string) : marks (rewritten q) = marks q.
Proof.
  unfold rewritten. pattern q, (segments q). apply segments_ind.
  - done.
  - intros c t _ IH. rewrite render_cons_text. simpl. by rewrite IH.
  - intros t _ IH. rewrite render_cons_text. simpl. by rewrite IH.
  - intros w r _ Hw _ IH. rewrite render_cons_match. simpl.
    by rewrite IH, marks_app, (marks_all_word w).
Qed.

(** X3. Rewriting keeps the number of question marks: one marker per
    placeholder plus the question marks that were already bare.  So a
    successful [MapToSlice] returns as many arguments as the rewritten
    template has markers, less the bare question marks of the
    template. *)
Theorem X3_markers_and_arguments (q q' : string) (m : gmap string any)
    (args : list any) :
  MapToSlice q (PtrTo (Some (AMap m))) = Done (q', args, None) ->
  marks q' = marks q /\
  marks q' = length args + bare_marks q.
Proof.
  rewrite MapToSlice_eq, bind_names_spec. simpl.
  destruct (last (missing_names m (placeholders q))) as [n|] eqn:Hl; [done|].
  apply last_None in Hl. intros [= <- <-].
  split; [apply marks_rewritten|].
  unfold rewritten, bare_marks. rewrite marks_render. f_equal.
  fold (matches q).
  assert (Hlen : length (matches q) = length (placeholders q))
    by (unfold placeholders; by rewrite length_fmap).
  rewrite Hlen. clear Hlen.
  induction (placeholders q) as [|n ns IH]; [done|].
  unfold missing_names in Hl. csimpl.
  destruct (m !! n) as [x|] eqn:Hn.
  - rewrite filter_cons_False in Hl by congruence. simpl. f_equal. by apply IH.
  - by rewrite filter_cons_True in Hl.
Qed.

Lemma X3_markers_and_arguments_witness :
  marks "x = ? and y = ?" = 1 + bare_marks "x = ? and y = ?b".
Proof.
  exact (proj2 (X3_markers_and_arguments "x = ? and y = ?b" "x = ? and y = ?"
                  {[ "b" := Raw (VInt 5) ]} [Raw (VInt 5)] eq_refl)).
Defined.

(** ** Further properties of the facade *)

Lemma traced_call {A : Type} (drv : driver) (enable : bool) (label : string)
    (c : call) (k : option nat * option error -> A) (w : world) :
  traced enable label (let* r := driver_call drv c in ret (k r)) w
  = (Done (k (drv c)), logged w (call_events enable label c)).
Proof.
  unfold traced, driver_call, bind, emit, ret, logged, call_events, spanned.
  destruct enable; simpl; by rewrite <- ?app_assoc.
Qed.

Lemma DB_Exec_eq (drv : driver) (db : DB) (q : string) (args : list any) (w : world) :
  DB_Exec drv db q args w
  = (Done (drv (DBExecContext (DB_sql db) q args)),
     logged w (call_events (DB_enableTrace db) q (DBExecContext (DB_sql db) q args))).
Proof.
  unfold DB_Exec.
  rewrite <- (traced_call drv _ _ _ (fun r => r)).
  unfold traced, driver_call, bind, emit, ret. by destruct (DB_enableTrace db).
Qed.

Lemma Tx_Exec_eq (drv : driver) (tx : Tx) (q : string) (args : list any) (w : world) :
  Tx_Exec drv tx q args w
  = (Done (drv (TxExecContext (Tx_sql tx) q args)),
     logged w (call_events (Tx_enableTrace tx) q (TxExecContext (Tx_sql tx) q args))).
Proof.
  unfold Tx_Exec.
  rewrite <- (traced_call drv _ _ _ (fun r => r)).
  unfold traced, driver_call, bind, emit, ret. by destruct (Tx_enableTrace tx).
Qed.

Lemma DB_Query_eq (drv : driver) (db : DB) (q : string) (args : list any) (w : world) :
  DB_Query drv db q args w
  = (Done (rows_result (DB_Mapper db) (drv (DBQueryContext (DB_sql db) q args))),
     logged w (call_events (DB_enableTrace db) q (DBQueryContext (DB_sql db) q args))).
Proof.
  unfold DB_Query.
  rewrite <- (traced_call drv _ _ _ (rows_result (DB_Mapper db))).
  unfold traced, driver_call, bind, emit, ret, rows_result.
  destruct (DB_enableTrace db); simpl; by destruct (drv _) as [h [e|]].
Qed.

Lemma Tx_Query_eq (drv : driver) (tx : Tx) (q : string) (args : list any) (w : world) :
  Tx_Query drv tx q args w
  = (Done (rows_result (Tx_Mapper tx) (drv (TxQueryContext (Tx_sql tx) q args))),
     logged w (call_events (Tx_enableTrace tx) q (TxQueryContext (Tx_sql tx) q args))).
Proof.
  unfold Tx_Query.
  rewrite <- (traced_call drv _ _ _ (rows_result (Tx_Mapper tx))).
  unfold traced, driver_call, bind, emit, ret, rows_result.
  destruct (Tx_enableTrace tx); simpl; by destruct (drv _) as [h [e|]].
Qed.

Lemma DB_QueryRow_eq (drv : driver) (db : DB) (q : string) (args : list any) (w : world) :
  DB_QueryRow drv db q args w
  = (Done (row_result (DB_Mapper db) (drv (DBQueryContext (DB_sql db) q args))),
     logged w (call_events (DB_enableTrace db) q (DBQueryContext (DB_sql db) q args))).
Proof.
  unfold DB_QueryRow, bind. rewrite DB_Query_eq.
  unfold row_result, rows_result, ret. by destruct (drv _) as [h [e|]].
Qed.

Lemma Tx_QueryRow_eq (drv : driver) (tx : Tx) (q : string) (args : list any) (w : world) :
  Tx_QueryRow drv tx q args w
  = (Done (row_result (Tx_Mapper tx) (drv (TxQueryContext (Tx_sql tx) q args))),
     logged w (call_events (Tx_enableTrace tx) q (TxQueryContext (Tx_sql tx) q args))).
Proof.
  unfold Tx_QueryRow, bind. rewrite Tx_Query_eq.
  unfold row_result, rows_result, ret. by destruct (drv _) as [h [e|]].
Qed.

Lemma driver_calls_call_events (enable : bool) (label : string) (c : call) :
  driver_calls (call_events enable label c) = [DriverCall c].
Proof. unfold call_events. by rewrite driver_calls_spanned. Qed.

(** X10. A positional [Exec], [Query] or [QueryRow] on a connection or
    a transaction makes exactly one driver call, with the query and the
    arguments it was given.  When the handle traces, the call sits
    between the start of a span, named by the text before the first
    space of the query and tagged with the query, and its finish; when
    it does not, no span event is logged.  Tables and statements of the
    store are untouched. *)
Theorem X10_positional_calls_and_spans (drv : driver) (db : DB) (tx : Tx)
    (q : string) (args : list any) (w : world) :
  let span (b : bool) (evs : list event) : list event :=
    if b then SpanStart (operationName q) q :: evs ++ [SpanFinish] else evs in
  let after (b : bool) (c : call) : world := mkWorld (tables w) (stmts w) (log w ++ span b [DriverCall c]) in
  (DB_Exec drv db q args w).2
    = after (DB_enableTrace db) (DBExecContext (DB_sql db) q args) /\
  (DB_Query drv db q args w).2
    = after (DB_enableTrace db) (DBQueryContext (DB_sql db) q args) /\
  (DB_QueryRow drv db q args w).2
    = after (DB_enableTrace db) (DBQueryContext (DB_sql db) q args) /\
  (Tx_Exec drv tx q args w).2
    = after (Tx_enableTrace tx) (TxExecContext (Tx_sql tx) q args) /\
  (Tx_Query drv tx q args w).2
    = after (Tx_enableTrace tx) (TxQueryContext (Tx_sql tx) q args) /\
  (Tx_QueryRow drv tx q args w).2
    = after (Tx_enableTrace tx) (TxQueryContext (Tx_sql tx) q args).
Proof.
  intros span after.
  rewrite DB_Exec_eq, DB_Query_eq, DB_QueryRow_eq, Tx_Exec_eq, Tx_Query_eq,
    Tx_QueryRow_eq.
  by repeat split.
Qed.

(** X12. The answer of the driver reaches the caller as it is.  [Exec]
    returns the driver's result and error unchanged.  [Query] returns
    the driver's error unchanged and no rows when there is one, and
    otherwise the driver's rows wrapped with the mapper of the handle;
    [QueryRow] puts the same rows and error in the row it returns. *)
Theorem X12_driver_answer_forwarded (drv : driver) (db : DB) (tx : Tx)
    (q : string) (args : list any) (w : world) :
  (DB_Exec drv db q args w).1 = Done (drv (DBExecContext (DB_sql db) q args)) /\
  (Tx_Exec drv tx q args w).1 = Done (drv (TxExecContext (Tx_sql tx) q args)) /\
  (forall h e,
     drv (DBQueryContext (DB_sql db) q args) = (h, Some e) ->
     (DB_Query drv db q args w).1 = Done (None, Some e) /\
     (DB_QueryRow drv db q args w).1 = Done (mkRow None (Some e))) /\
  (forall h,
     drv (DBQueryContext (DB_sql db) q args) = (h, None) ->
     (DB_Query drv db q args w).1 = Done (Some (mkRows h (DB_Mapper db)), None) /\
     (DB_QueryRow drv db q args w).1
       = Done (mkRow (Some (mkRows h (DB_Mapper db))) None)) /\
  (forall h e,
     drv (TxQueryContext (Tx_sql tx) q args) = (h, Some e) ->
     (Tx_Query drv tx q args w).1 = Done (None, Some e) /\
     (Tx_QueryRow drv tx q args w).1 = Done (mkRow None (Some e))) /\
  (forall h,
     drv (TxQueryContext (Tx_sql tx) q args) = (h, None) ->
     (Tx_Query drv tx q args w).1 = Done (Some (mkRows h (Tx_Mapper tx)), None) /\
     (Tx_QueryRow drv tx q args w).1
       = Done (mkRow (Some (mkRows h (Tx_Mapper tx))) None)).
Proof.
  rewrite DB_Exec_eq, DB_Query_eq, DB_QueryRow_eq, Tx_Exec_eq, Tx_Query_eq,
    Tx_QueryRow_eq.
  unfold row_result, rows_result. simpl.
  split; [done|]. split; [done|].
  repeat split; by rewrite H.
Qed.

Lemma X12_driver_answer_forwarded_witness :
  (DB_QueryRow (fun _ => (None, Some (ForeignError 3))) sample_db
               "select 1" [] empty_world).1
  = Done (mkRow None (Some (ForeignError 3))).
Proof.
  destruct (X12_driver_answer_forwarded (fun _ => (None, Some (ForeignError 3)))
              sample_db sample_tx "select 1" [] empty_world)
    as (_ & _ & H & _).
  exact (proj2 (H None (ForeignError 3) eq_refl)).
Defined.

(** X1. The table [DB.Prepare] and [Tx.Prepare] store for a template
    maps an identifier to [j] exactly when the [j]-th placeholder of
    the template (counting from zero) is that identifier and the
    identifier does not occur again later: a repeated name keeps the
    ordinal of its last occurrence only. *)
Theorem X1_name_table_last_occurrence (drv : driver) (db : DB) (tx : Tx)
    (q : string) (w : world) :
  exists t,
    tables (DB_Prepare drv db q w).2 = tables w ++ [t] /\
    tables (Tx_Prepare drv tx q w).2 = tables w ++ [t] /\
    forall k j,
      t !! k = Some j <->
      placeholders q !! j = Some k /\ k ∉ drop (S j) (placeholders q).
Proof.
  exists (name_table q). rewrite DB_Prepare_eq, Tx_Prepare_eq.
  split; [apply prepare_outcome_store|].
  split; [apply prepare_outcome_store|].
  intros k j. apply name_table_last_occurrence.
Qed.

(** X2. When [MapToSlice] returns no error, it returns the rewritten
    template and one argument per placeholder occurrence, repeated
    names included; the argument at position [i] is the entry of the
    map for the [i]-th placeholder. *)
Theorem X2_MapToSlice_binds_in_order (q q' : string) (m : gmap string any)
    (args : list any) :
  MapToSlice q (PtrTo (Some (AMap m))) = Done (q', args, None) ->
  q' = rewritten q /\
  length args = length (placeholders q) /\
  forall i n, placeholders q !! i = Some n -> args !! i = m !! n.
Proof.
  intros H. destruct (MapToSlice_bound q m q' args H) as (Hq & Hl & Hi).
  split; [done|]. split; [done|]. intros i n Hn. by apply Hi.
Qed.

Lemma X2_MapToSlice_binds_in_order_witness :
  length [Raw (VInt 1); Raw (VString "s"); Raw (VInt 1)]
  = length (placeholders "select ?a, ?b, ?a").
Proof.
  exact (proj1 (proj2 (X2_MapToSlice_binds_in_order
    "select ?a, ?b, ?a" "select ?, ?, ?"
    {[ "a" := Raw (VInt 1); "b" := Raw (VString "s") ]}
    [Raw (VInt 1); Raw (VString "s"); Raw (VInt 1)] eq_refl))).
Defined.

Lemma missing_names_last (m : gmap string any) (ns : list string) (n : string) :
  n ∈ ns -> m !! n = None ->
  exists n', last (missing_names m ns) = Some n' /\ n' ∈ ns /\ m !! n' = None.
Proof.
  intros Hin Hn.
  assert (Hf : n ∈ missing_names m ns) by (by apply list_elem_of_filter).
  destruct (last (missing_names m ns)) as [n'|] eqn:Hl.
  - exists n'. split; [done|].
    apply last_Some_elem_of, list_elem_of_filter in Hl as [? ?]. done.
  - apply last_None in Hl. rewrite Hl in Hf. by apply elem_of_nil in Hf.
Qed.

Lemma missing_names_none (m : gmap string any) (ns : list string) :
  (forall n, n ∈ ns -> is_Some (m !! n)) -> missing_names m ns = [].
Proof.
  intros Hall. destruct (missing_names m ns) as [|n l] eqn:Hm; [done|].
  assert (Hin : n ∈ missing_names m ns) by (rewrite Hm; apply elem_of_cons; by left).
  apply list_elem_of_filter in Hin as [Hn Hin].
  apply Hall in Hin as [x Hx]. congruence.
Qed.

(** X5. A map that lacks the entry of some placeholder makes the ad-hoc
    map binders of a connection and of a transaction return the
    missing-key error of a placeholder the map lacks, with no result;
    the store is left as it was: no span, no driver call. *)
Theorem X5_adhoc_map_missing_key (drv : driver) (db : DB) (tx : Tx)
    (q : string) (m : gmap string any) (n : string) (w : world) :
  n ∈ placeholders q -> m !! n = None ->
  exists n', n' ∈ placeholders q /\ m !! n' = None /\
    let mp := PtrTo (Some (AMap m)) in
    let err := Some (errorString ("map key " +:+ n' +:+ " is missing")) in
    DB_QueryMap drv db q mp w = (Done (None, err), w) /\
    DB_QueryRowMap drv db q mp w = (Done (mkRow None err), w) /\
    DB_ExecMap drv db q mp w = (Done (None, err), w) /\
    Tx_QueryMap drv tx q mp w = (Done (None, err), w) /\
    Tx_QueryRowMap drv tx q mp w = (Done (mkRow None err), w) /\
    Tx_ExecMap drv tx q mp w = (Done (None, err), w).
Proof.
  intros Hin Hn.
  destruct (missing_names_last m _ n Hin Hn) as (n' & Hl & Hin' & Hn').
  exists n'. split; [done|]. split; [done|].
  apply (map_binders_missing_key drv db tx q m n' w Hl).
Qed.

Lemma X5_adhoc_map_missing_key_witness :
  exists n', n' ∈ placeholders "update t set a = ?a where id = ?id" /\
    DB_ExecMap ok_driver sample_db "update t set a = ?a where id = ?id"
               (PtrTo (Some (AMap {[ "a" := Raw (VInt 1) ]}))) empty_world
    = (Done (None, Some (errorString ("map key " +:+ n' +:+ " is missing"))),
       empty_world).
Proof.
  destruct (X5_adhoc_map_missing_key ok_driver sample_db sample_tx
              "update t set a = ?a where id = ?id"
              {[ "a" := Raw (VInt 1) ]} "id" empty_world)
    as (n' & Hin & _ & _ & _ & H & _).
  - change (placeholders "update t set a = ?a where id = ?id")
      with ["a"; "id"].
    apply elem_of_cons. right. apply elem_of_cons. by left.
  - reflexivity.
  - exists n'. split; [exact Hin | exact H].
Defined.

Lemma MapToSlice_all_present (q : string) (m : gmap string any) :
  (forall n, n ∈ placeholders q -> is_Some (m !! n)) ->
  MapToSlice q (PtrTo (Some (AMap m)))
  = Done (rewritten q, omap (fun n => m !! n) (placeholders q), None).
Proof.
  intros Hall. rewrite MapToSlice_eq, bind_names_spec.
  by rewrite missing_names_none.
Qed.

(** X6. When the map has an entry for every placeholder, binding with
    the map is the positional call on the rewritten template: the
    ad-hoc map binders of a connection and of a transaction behave as
    [Exec], [Query] and [QueryRow] do on the rewritten template with
    one argument per placeholder occurrence, the argument at position
    [i] being the entry of the [i]-th placeholder. *)
Theorem X6_adhoc_map_binding_is_positional (drv : driver) (db : DB) (tx : Tx)
    (q : string) (m : gmap string any) (w : world) :
  (forall n, n ∈ placeholders q -> is_Some (m !! n)) ->
  exists args,
    length args = length (placeholders q) /\
    (forall i n, placeholders q !! i = Some n -> args !! i = m !! n) /\
    let mp := PtrTo (Some (AMap m)) in
    DB_ExecMap drv db q mp w = DB_Exec drv db (rewritten q) args w /\
    DB_QueryMap drv db q mp w = DB_Query drv db (rewritten q) args w /\
    DB_QueryRowMap drv db q mp w = DB_QueryRow drv db (rewritten q) args w /\
    Tx_ExecMap drv tx q mp w = Tx_Exec drv tx (rewritten q) args w /\
    Tx_QueryMap drv tx q mp w = Tx_Query drv tx (rewritten q) args w /\
    Tx_QueryRowMap drv tx q mp w = Tx_QueryRow drv tx (rewritten q) args w.
Proof.
  intros Hall. pose proof (MapToSlice_all_present q m Hall) as Hm.
  destruct (MapToSlice_bound q m _ _ Hm) as (_ & Hl & Hi).
  eexists. split; [exact Hl|]. split; [intros i n Hn; by apply Hi|].
  unfold DB_ExecMap, DB_QueryMap, DB_QueryRowMap, Tx_ExecMap, Tx_QueryMap,
    Tx_QueryRowMap, bind, lift.
  rewrite Hm. by repeat split.
Qed.

Lemma X6_adhoc_map_binding_is_positional_witness :
  exists args,
    length args = 2 /\
    DB_ExecMap ok_driver sample_db "insert into t (a, b) values (?X, ?Y)"
      (PtrTo (Some (AMap {[ "X" := Raw (VInt 1); "Y" := Raw (VString "s") ]})))
      empty_world
    = DB_Exec ok_driver sample_db "insert into t (a, b) values (?, ?)" args
              empty_world.
Proof.
  destruct (X6_adhoc_map_binding_is_positional ok_driver sample_db sample_tx
              "insert into t (a, b) values (?X, ?Y)"
              {[ "X" := Raw (VInt 1); "Y" := Raw (VString "s") ]} empty_world)
    as (args & Hl & _ & H & _).
  - intros n Hn. vm_compute in Hn.
    apply elem_of_cons in Hn as [->|Hn]; [by eexists|].
    apply elem_of_cons in Hn as [->|Hn]; [by eexists|].
    by apply elem_of_nil in Hn.
  - exists args. split; [exact Hl | exact H].
Defined.

(** ** Further properties of [StructToSlice] *)

Lemma bind_fields_app (fs : gmap string any) (a b : list string)
    (st : list any * option error) :
  bind_fields fs (a ++ b) st =
  match bind_fields fs a st with
  | Done st' => bind_fields fs b st'
  | Panic p => Panic p
  end.
Proof.
  revert st. induction a as [|n a IH]; intros st; simpl; [done|].
  destruct (bind_field fs n st); [apply IH | done].
Qed.

Lemma bind_fields_unreadable (fs : gmap string any) (ns : list string)
    (st : list any * option error) (n : string) :
  n ∈ ns -> fs !! n = None \/ reflect.is_exported n = false ->
  exists p, bind_fields fs ns st = Panic p.
Proof.
  intros Hin Hn. revert st.
  induction ns as [|n0 ns IH]; intros st; [by apply elem_of_nil in Hin|].
  simpl. destruct (bind_field fs n0 st) as [st'|p] eqn:Hb; [|eauto].
  apply elem_of_cons in Hin as [->|Hin]; [|by apply IH].
  unfold bind_field in Hb. destruct Hn as [Hn|Hn]; rewrite Hn in Hb.
  - done.
  - by destruct (fs !! n0).
Qed.

Lemma bind_fields_total (fs : gmap string any) (ns : list string)
    (st : list any * option error) :
  (forall n, n ∈ ns -> readable fs n) -> exists st', bind_fields fs ns st = Done st'.
Proof.
  revert st. induction ns as [|n ns IH]; intros st Hall; simpl; [eauto|].
  destruct (Hall n) as [[fv Hfv] Hex]; [apply elem_of_cons; by left|].
  unfold bind_field. rewrite Hfv, Hex.
  destruct fv as [v|v [e|]]; apply IH; intros n' Hn'; apply Hall, elem_of_cons;
    by right.
Qed.

Lemma bind_fields_converted (fs : gmap string any) (ns : list string)
    (args : list any) :
  (forall n, n ∈ ns -> readable fs n /\ is_Some (fs !! n ≫= field_arg)) ->
  bind_fields fs ns (args, None)
  = Done (args ++ omap (fun n => fs !! n ≫= field_arg) ns, None).
Proof.
  revert args. induction ns as [|n ns IH]; intros args Hall.
  - simpl. by rewrite app_nil_r.
  - destruct (Hall n) as [[[fv Hfv] Hex] [x Hx]]; [apply elem_of_cons; by left|].
    assert (Hrest : forall n', n' ∈ ns ->
              readable fs n' /\ is_Some (fs !! n' ≫= field_arg)).
    { intros n' Hn'. apply Hall, elem_of_cons. by right. }
    csimpl. unfold bind_field. rewrite Hfv, Hex. rewrite Hfv in Hx. simpl in *.
    destruct fv as [v|v [e|]]; simpl in *; [| done |].
    + rewrite (IH _ Hrest), <- app_assoc. done.
    + rewrite (IH _ Hrest), <- app_assoc. done.
Qed.

Lemma bind_fields_raw (fs : gmap string any) (ns : list string)
    (args : list any) (err : option error) :
  (forall n, n ∈ ns ->
     reflect.is_exported n = true /\ exists v, fs !! n = Some (Raw v)) ->
  exists args', bind_fields fs ns (args, err) = Done (args', err).
Proof.
  revert args. induction ns as [|n ns IH]; intros args Hall; simpl; [eauto|].
  destruct (Hall n) as [Hex [v Hv]]; [apply elem_of_cons; by left|].
  unfold bind_field. rewrite Hv, Hex. simpl.
  apply IH. intros n' Hn'. apply Hall, elem_of_cons. by right.
Qed.

Lemma omap_lookup_all {A B : Type} (f : A -> option B) (l : list A) :
  (forall x, x ∈ l -> is_Some (f x)) ->
  length (omap f l) = length l /\
  forall i x, l !! i = Some x -> omap f l !! i = f x.
Proof.
  induction l as [|a l IH]; intros Hall; [done|].
  destruct (Hall a) as [b Hb]; [apply elem_of_cons; by left|].
  destruct IH as [IHl IHi]; [intros x Hx; apply Hall, elem_of_cons; by right|].
  csimpl. rewrite Hb. simpl. split; [by rewrite IHl|].
  intros [|i] x; simpl; [by intros [= <-] | apply IHi].
Qed.

(** X7. [StructToSlice] does not check that a placeholder names a field
    it can read: when some placeholder names a field the struct lacks,
    or one that is not exported, [StructToSlice] panics, and so does
    every ad-hoc struct binder of a connection and of a transaction,
    before any span or driver call. *)
Theorem X7_unreadable_field_panics (drv : driver) (db : DB) (tx : Tx)
    (q : string) (fs : gmap string any) (n : string) (w : world) :
  n ∈ placeholders q ->
  fs !! n = None \/ reflect.is_exported n = false ->
  exists p,
    let st := PtrTo (Some (AStruct fs)) in
    StructToSlice q st = Panic p /\
    DB_ExecStruct drv db q st w = (Panic p, w) /\
    DB_QueryStruct drv db q st w = (Panic p, w) /\
    DB_QueryRowStruct drv db q st w = (Panic p, w) /\
    Tx_ExecStruct drv tx q st w = (Panic p, w) /\
    Tx_QueryStruct drv tx q st w = (Panic p, w) /\
    Tx_QueryRowStruct drv tx q st w = (Panic p, w).
Proof.
  intros Hin Hn.
  destruct (bind_fields_unreadable fs _ ([], None) n Hin Hn) as [p Hp].
  exists p. intros st.
  assert (Hs : StructToSlice q st = Panic p)
    by (unfold st; by rewrite StructToSlice_eq, Hp).
  unfold DB_ExecStruct, DB_QueryStruct, DB_QueryRowStruct, Tx_ExecStruct,
    Tx_QueryStruct, Tx_QueryRowStruct, bind, lift.
  rewrite Hs. by repeat split.
Qed.

Lemma X7_unreadable_field_panics_witness :
  exists p,
    DB_ExecStruct ok_driver sample_db "insert into t (a) values (?name)"
      (PtrTo (Some (AStruct {[ "name" := Raw (VString "x") ]}))) empty_world
    = (Panic p, empty_world).
Proof.
  destruct (X7_unreadable_field_panics ok_driver sample_db sample_tx
              "insert into t (a) values (?name)"
              {[ "name" := Raw (VString "x") ]} "name" empty_world)
    as (p & _ & H & _).
  - change (placeholders "insert into t (a) values (?name)") with ["name"].
    apply elem_of_cons. by left.
  - right. reflexivity.
  - exists p. exact H.
Defined.

(** X8. When every placeholder names a readable field and no conversion
    fails, [StructToSlice] returns the rewritten template, no error and
    one argument per placeholder occurrence: at position [i] the field
    of the [i]-th placeholder itself when it is no Valuer, and the
    value its conversion returns when it is one.  The ad-hoc struct
    binders then behave as the positional calls on that template and
    those arguments. *)
Theorem X8_StructToSlice_converts_in_order (drv : driver) (db : DB) (tx : Tx)
    (q : string) (fs : gmap string any) (w : world) :
  (forall n, n ∈ placeholders q ->
     readable fs n /\ is_Some (fs !! n ≫= field_arg)) ->
  exists args,
    let st := PtrTo (Some (AStruct fs)) in
    StructToSlice q st = Done (rewritten q, args, None) /\
    length args = length (placeholders q) /\
    (forall i n, placeholders q !! i = Some n ->
                 args !! i = fs !! n ≫= field_arg) /\
    DB_ExecStruct drv db q st w = DB_Exec drv db (rewritten q) args w /\
    DB_QueryStruct drv db q st w = DB_Query drv db (rewritten q) args w /\
    DB_QueryRowStruct drv db q st w = DB_QueryRow drv db (rewritten q) args w /\
    Tx_ExecStruct drv tx q st w = Tx_Exec drv tx (rewritten q) args w /\
    Tx_QueryStruct drv tx q st w = Tx_Query drv tx (rewritten q) args w /\
    Tx_QueryRowStruct drv tx q st w = Tx_QueryRow drv tx (rewritten q) args w.
Proof.
  intros Hall.
  pose proof (bind_fields_converted fs _ [] Hall) as Hb. simpl in Hb.
  destruct (omap_lookup_all (fun n => fs !! n ≫= field_arg) (placeholders q))
    as [Hl Hi]; [intros n Hn; by apply Hall|].
  eexists. intros st.
  assert (Hs : StructToSlice q st = Done (rewritten q, _, None))
    by (unfold st; by rewrite StructToSlice_eq, Hb).
  split; [exact Hs|]. split; [exact Hl|]. split; [exact Hi|].
  unfold DB_ExecStruct, DB_QueryStruct, DB_QueryRowStruct, Tx_ExecStruct,
    Tx_QueryStruct, Tx_QueryRowStruct, bind, lift.
  rewrite Hs. by repeat split.
Qed.

Lemma X8_StructToSlice_converts_in_order_witness :
  exists args,
    StructToSlice "insert into t (a,b) values (?X, ?Y)"
      (PtrTo (Some (AStruct {[ "X" := Raw (VInt 1);
                               "Y" := Valuer (VString "s") None ]})))
    = Done ("insert into t (a,b) values (?, ?)", args, None) /\
    args !! 0 = Some (Raw (VInt 1)) /\ args !! 1 = Some (Raw (VString "s")).
Proof.
  destruct (X8_StructToSlice_converts_in_order ok_driver sample_db sample_tx
              "insert into t (a,b) values (?X, ?Y)"
              {[ "X" := Raw (VInt 1); "Y" := Valuer (VString "s") None ]}
              empty_world)
    as (args & Hs & _ & Hi & _).
  - intros n Hn.
    change (placeholders "insert into t (a,b) values (?X, ?Y)")
      with ["X"; "Y"] in Hn.
    apply elem_of_cons in Hn as [->|Hn];
      [split; [split; [by eexists | reflexivity] | by eexists]|].
    apply elem_of_cons in Hn as [->|Hn];
      [split; [split; [by eexists | reflexivity] | by eexists]|].
    by apply elem_of_nil in Hn.
  - exists args. split; [exact Hs|]. split.
    + exact (Hi 0 "X" eq_refl).
    + exact (Hi 1 "Y" eq_refl).
Defined.

(** X9. A conversion failure is reported when no Valuer is bound after
    it: if the field of a placeholder fails to convert with [e], the
    placeholders before it name readable fields and those after it
    name exported fields that are no Valuer, then [StructToSlice]
    returns an empty template, no argument and the error [e] itself,
    and the ad-hoc struct binders return [e] without touching the
    store: no span, no driver call. *)
Theorem X9_conversion_failure_reported (drv : driver) (db : DB) (tx : Tx)
    (q : string) (fs : gmap string any) (w : world)
    (ns1 ns2 : list string) (n : string) (v : value) (e : error) :
  placeholders q = ns1 ++ n :: ns2 ->
  (forall k, k ∈ ns1 -> readable fs k) ->
  reflect.is_exported n = true ->
  fs !! n = Some (Valuer v (Some e)) ->
  (forall k, k ∈ ns2 ->
     reflect.is_exported k = true /\ exists x, fs !! k = Some (Raw x)) ->
  let st := PtrTo (Some (AStruct fs)) in
  StructToSlice q st = Done ("", [], Some e) /\
  DB_ExecStruct drv db q st w = (Done (None, Some e), w) /\
  DB_QueryStruct drv db q st w = (Done (None, Some e), w) /\
  DB_QueryRowStruct drv db q st w = (Done (mkRow None (Some e)), w) /\
  Tx_ExecStruct drv tx q st w = (Done (None, Some e), w) /\
  Tx_QueryStruct drv tx q st w = (Done (None, Some e), w) /\
  Tx_QueryRowStruct drv tx q st w = (Done (mkRow None (Some e)), w).
Proof.
  intros Hq H1 Hex Hn H2 st.
  assert (Hs : StructToSlice q st = Done ("", [], Some e)).
  { unfold st. rewrite StructToSlice_eq, Hq, bind_fields_app.
    destruct (bind_fields_total fs ns1 ([], None) H1) as [[a1 e1] ->].
    simpl. unfold bind_field. rewrite Hn, Hex. simpl.
    destruct (bind_fields_raw fs ns2 a1 (Some e) H2) as [a2 ->]. done. }
  unfold DB_ExecStruct, DB_QueryStruct, DB_QueryRowStruct, Tx_ExecStruct,
    Tx_QueryStruct, Tx_QueryRowStruct, bind, lift.
  rewrite Hs. by repeat split.
Qed.

Lemma X9_conversion_failure_reported_witness :
  DB_ExecStruct ok_driver sample_db "insert into t (a, b) values (?A, ?B)"
    (PtrTo (Some (AStruct {[ "A" := Valuer VNil (Some (ForeignError 9));
                             "B" := Raw (VInt 2) ]}))) empty_world
  = (Done (None, Some (ForeignError 9)), empty_world).
Proof.
  destruct (X9_conversion_failure_reported ok_driver sample_db sample_tx
              "insert into t (a, b) values (?A, ?B)"
              {[ "A" := Valuer VNil (Some (ForeignError 9)); "B" := Raw (VInt 2) ]}
              empty_world [] ["B"] "A" VNil (ForeignError 9))
    as (_ & H & _).
  - reflexivity.
  - intros k Hk. by apply elem_of_nil in Hk.
  - reflexivity.
  - reflexivity.
  - intros k Hk. apply elem_of_cons in Hk as [->|Hk].
    + split; [reflexivity|]. by eexists.
    + by apply elem_of_nil in Hk.
  - exact H.
Defined.

(** ** Further properties of prepared statements *)

Lemma record_names_cons (n : string) (ns : list string) (t : gmap string nat)
    (i : nat) :
  record_names (n :: ns) (t, i) = record_names ns (<[n := i]> t, i + 1).
Proof. reflexivity. Qed.

Lemma record_names_full (ns : list string) (t : gmap string nat) (i : nat) :
  size (record_names ns (t, i)).1 = size t + length ns ->
  NoDup ns /\ forall k, k ∈ ns -> t !! k = None.
Proof.
  revert t i. induction ns as [|n ns IH]; intros t i Hsz.
  - split; [constructor|]. intros k Hk. by apply elem_of_nil in Hk.
  - rewrite record_names_cons in Hsz. simpl in Hsz.
    pose proof (record_names_size ns (<[n := i]> t) (i + 1)) as Hle.
    assert (Hn : t !! n = None).
    { destruct (t !! n) as [j|] eqn:Hn; [|done].
      rewrite map_size_insert, Hn in Hle. simpl in Hle. lia. }
    rewrite map_size_insert, Hn in Hle. simpl in Hle.
    destruct (IH (<[n := i]> t) (i + 1)) as [Hnd Hnone].
    { rewrite map_size_insert, Hn. simpl. lia. }
    assert (Hnot : n ∉ ns).
    { intros Hin. apply Hnone in Hin. by rewrite lookup_insert_eq in Hin. }
    split; [by constructor|].
    intros k [->|Hk]%elem_of_cons; [done|].
    pose proof (Hnone k Hk) as Hk'.
    rewrite lookup_insert_ne in Hk'; [done|]. intros ->. done.
Qed.

Lemma record_names_NoDup_size (ns : list string) (t : gmap string nat) (i : nat) :
  NoDup ns -> (forall k, k ∈ ns -> t !! k = None) ->
  size (record_names ns (t, i)).1 = size t + length ns.
Proof.
  revert t i. induction ns as [|n ns IH]; intros t i Hnd Hnone.
  - simpl. lia.
  - apply NoDup_cons in Hnd as [Hnot Hnd].
    rewrite record_names_cons, IH; [|done|].
    + rewrite map_size_insert_None; [simpl; lia|].
      apply Hnone, elem_of_cons. by left.
    + intros k Hk. rewrite lookup_insert_ne by (intros ->; done).
      apply Hnone, elem_of_cons. by right.
Qed.

(** The name table has as many entries as the template has
    placeholders exactly when no identifier is repeated. *)
Lemma name_table_size_NoDup (q : string) :
  size (name_table q) = length (placeholders q) <-> NoDup (placeholders q).
Proof.
  unfold name_table. split.
  - intros H. apply (record_names_full _ ∅ 0). by rewrite map_size_empty.
  - intros H. rewrite record_names_NoDup_size; [by rewrite map_size_empty|done|].
    intros k _. apply lookup_empty.
Qed.

Lemma NoDup_not_later (ns : list string) (i : nat) (n : string) :
  NoDup ns -> ns !! i = Some n -> n ∉ drop (S i) ns.
Proof.
  intros Hnd Hi [j Hj]%list_elem_of_lookup.
  rewrite lookup_drop in Hj.
  pose proof (NoDup_lookup _ _ _ _ Hnd Hi Hj). lia.
Qed.

Lemma Stmt_bind_eq (range : gmap string nat -> list (string * nat))
    (s : loc) (st : Stmt) (tbl : gmap string nat) (get : string -> res any)
    (w : world) :
  stmts w !! s = Some st ->
  tables w !! Stmt_names st = Some tbl ->
  Stmt_bind range (Some s) get w
  = (bind_range get (range tbl) (replicate (size tbl) (Raw VNil)), w).
Proof.
  intros Hs Ht. unfold Stmt_bind, bind, load_stmt, load_table, lift.
  simpl. rewrite Hs. simpl. by rewrite Ht.
Qed.

Lemma Stmt_Exec_eq (drv : driver) (s : loc) (st : Stmt) (args : list any)
    (w : world) :
  stmts w !! s = Some st ->
  Stmt_Exec drv (Some s) args w
  = (Done (drv (StmtExecContext (Stmt_sql st) args)),
     logged w (call_events (Stmt_enableTrace st) "Stmt Exec"
                 (StmtExecContext (Stmt_sql st) args))).
Proof.
  intros Hs. unfold Stmt_Exec, bind at 1, load_stmt. simpl. rewrite Hs.
  rewrite <- (traced_call drv _ _ _ (fun r => r)).
  unfold traced, driver_call, bind, emit, ret. by destruct (Stmt_enableTrace st).
Qed.

Lemma Stmt_Query_eq (drv : driver) (s : loc) (st : Stmt) (args : list any)
    (w : world) :
  stmts w !! s = Some st ->
  Stmt_Query drv (Some s) args w
  = (Done (rows_result (Stmt_Mapper st) (drv (StmtQueryContext (Stmt_sql st) args))),
     logged w (call_events (Stmt_enableTrace st) "Stmt Query"
                 (StmtQueryContext (Stmt_sql st) args))).
Proof.
  intros Hs. unfold Stmt_Query, bind at 1, load_stmt. simpl. rewrite Hs.
  rewrite <- (traced_call drv _ _ _ (rows_result (Stmt_Mapper st))).
  unfold traced, driver_call, bind, emit, ret, rows_result.
  destruct (Stmt_enableTrace st); simpl; by destruct (drv _) as [h [e|]].
Qed.

Lemma Stmt_QueryRow_eq (drv : driver) (s : loc) (st : Stmt) (args : list any)
    (w : world) :
  stmts w !! s = Some st ->
  Stmt_QueryRow drv (Some s) args w
  = (Done (row_result (Stmt_Mapper st) (drv (StmtQueryContext (Stmt_sql st) args))),
     logged w (call_events (Stmt_enableTrace st) "Stmt Query"
                 (StmtQueryContext (Stmt_sql st) args))).
Proof.
  intros Hs. unfold Stmt_QueryRow, bind. rewrite (Stmt_Query_eq _ _ st) by done.
  unfold row_result, rows_result, ret. by destruct (drv _) as [h [e|]].
Qed.

Lemma bind_range_succeeds (get : string -> res any) (kis : list (string * nat))
    (args0 : list any) :
  (forall k i, (k, i) ∈ kis -> i < length args0 /\ exists x, get k = Done x) ->
  exists args, bind_range get kis args0 = Done args.
Proof.
  revert args0. induction kis as [|[k i] kis IH]; intros args0 Hall; simpl; [eauto|].
  destruct (Hall k i) as [Hi [x ->]]; [apply elem_of_cons; by left|].
  rewrite decide_True by done. apply IH. intros k' i' Hin.
  rewrite length_insert. apply Hall, elem_of_cons. by right.
Qed.

Lemma Stmt_bind_positions (range : gmap string nat -> list (string * nat))
    (s : loc) (st : Stmt) (q : string) (get : string -> res any)
    (w w' : world) (args : list any) :
  (forall t, range t ≡ₚ map_to_list t) ->
  stmts w !! s = Some st ->
  tables w !! Stmt_names st = Some (name_table q) ->
  Stmt_bind range (Some s) get w = (Done args, w') ->
  w' = w /\ NoDup (placeholders q) /\
  length args = length (placeholders q) /\
  forall i n, placeholders q !! i = Some n ->
              exists x, get n = Done x /\ args !! i = Some x.
Proof.
  intros Hperm Hs Ht Hb.
  destruct (Stmt_bind_bound range s st q get w w' args Hperm Hs Ht Hb)
    as (-> & Hl & Hi).
  rewrite (Stmt_bind_eq range s st (name_table q)) in Hb by done.
  injection Hb as Hb.
  apply bind_range_done in Hb as [Hsz _]. rewrite length_replicate in Hsz.
  assert (Hnd : NoDup (placeholders q)).
  { apply name_table_size_NoDup. congruence. }
  split; [done|]. split; [done|]. split; [done|].
  intros i n Hn. apply Hi, name_table_last_occurrence.
  split; [done|]. by apply NoDup_not_later.
Qed.

Lemma map_get_Done (m : gmap string any) (k : string) (x : any) :
  map_get (reflect.ValueOf (PtrTo (Some (AMap m)))) k = Done x <-> m !! k = Some x.
Proof.
  unfold map_get. simpl. destruct (m !! k) as [y|]; simpl; [|done].
  split; by intros [= ->].
Qed.

Lemma field_get_Done (fs : gmap string any) (k : string) (x : any) :
  field_get (reflect.ValueOf (PtrTo (Some (AStruct fs)))) k = Done x <->
  fs !! k = Some x /\ reflect.is_exported k = true.
Proof.
  unfold field_get. simpl. destruct (fs !! k) as [y|]; simpl.
  - destruct (reflect.is_exported k); simpl.
    + split; [by intros [= ->] | by intros [[= ->] _]].
    + split; [done | by intros [_ ?]].
  - split; [done | by intros [? _]].
Qed.

(** X13. If a map binder of a prepared statement returns at all, then
    the template it was prepared from repeats no identifier, and the
    binder behaves as the positional call of the statement with one
    argument per placeholder, the argument at position [i] being the
    entry of the map for the [i]-th placeholder, in whatever order the
    name table was visited. *)
Theorem X13_Stmt_map_binding_by_position (drv : driver)
    (range : gmap string nat -> list (string * nat))
    (s : loc) (st : Stmt) (q : string) (m : gmap string any) (w : world) :
  (forall t, range t ≡ₚ map_to_list t) ->
  stmts w !! s = Some st ->
  tables w !! Stmt_names st = Some (name_table q) ->
  let mp := PtrTo (Some (AMap m)) in
  let bound (args : list any) :=
    NoDup (placeholders q) /\
    length args = length (placeholders q) /\
    forall i n, placeholders q !! i = Some n -> args !! i = m !! n in
  (forall r w', Stmt_ExecMap drv range (Some s) mp w = (Done r, w') ->
     exists args, bound args /\
       Stmt_ExecMap drv range (Some s) mp w = Stmt_Exec drv (Some s) args w) /\
  (forall r w', Stmt_QueryMap drv range (Some s) mp w = (Done r, w') ->
     exists args, bound args /\
       Stmt_QueryMap drv range (Some s) mp w = Stmt_Query drv (Some s) args w) /\
  (forall r w', Stmt_QueryRowMap drv range (Some s) mp w = (Done r, w') ->
     exists args, bound args /\
       Stmt_QueryRowMap drv range (Some s) mp w = Stmt_QueryRow drv (Some s) args w).
Proof.
  intros Hperm Hs Ht mp bound.
  set (get := map_get (reflect.ValueOf mp)).
  assert (Hbound : forall args w',
            Stmt_bind range (Some s) get w = (Done args, w') ->
            w' = w /\ bound args).
  { intros args w' Hb.
    destruct (Stmt_bind_positions range s st q get w w' args Hperm Hs Ht Hb)
      as (-> & Hnd & Hl & Hi).
    split; [done|]. split; [done|]. split; [done|].
    intros i n Hn. destruct (Hi i n Hn) as (x & Hx & ->).
    symmetry. by apply map_get_Done. }
  unfold Stmt_ExecMap, Stmt_QueryMap, Stmt_QueryRowMap, bind. cbv zeta.
  change (not_map_pointer (reflect.ValueOf mp)) with false. cbv beta iota. fold get.
  destruct (Stmt_bind range (Some s) get w) as [[args|p] w1] eqn:Hb.
  - destruct (Hbound args w1 eq_refl) as [-> Hargs].
    repeat split; intros r w' _; exists args; by split.
  - repeat split; intros r w' [=].
Qed.

(** X14. A statement prepared from a template that repeats an
    identifier can not be bound by name: each of its six binders
    panics, given a map pointer or a struct pointer, whatever the map
    or the struct holds and in whatever order the name table is
    visited; the store is left as it was, so no driver call is made. *)
Theorem X14_Stmt_repeated_name_panics (drv : driver)
    (range : gmap string nat -> list (string * nat))
    (s : loc) (st : Stmt) (q : string) (w : world) :
  (forall t, range t ≡ₚ map_to_list t) ->
  stmts w !! s = Some st ->
  tables w !! Stmt_names st = Some (name_table q) ->
  ~ NoDup (placeholders q) ->
  (forall m, exists p,
     let mp := PtrTo (Some (AMap m)) in
     Stmt_ExecMap drv range (Some s) mp w = (Panic p, w) /\
     Stmt_QueryMap drv range (Some s) mp w = (Panic p, w) /\
     Stmt_QueryRowMap drv range (Some s) mp w = (Panic p, w)) /\
  (forall fs, exists p,
     let sp := PtrTo (Some (AStruct fs)) in
     Stmt_ExecStruct drv range (Some s) sp w = (Panic p, w) /\
     Stmt_QueryStruct drv range (Some s) sp w = (Panic p, w) /\
     Stmt_QueryRowStruct drv range (Some s) sp w = (Panic p, w)).
Proof.
  intros Hperm Hs Ht Hdup.
  assert (Hpanic : forall get, exists p,
            Stmt_bind range (Some s) get w = (Panic p, w)).
  { intros get.
    destruct (Stmt_bind range (Some s) get w) as [[args|p] w1] eqn:Hb.
    - exfalso. apply Hdup.
      by destruct (Stmt_bind_positions range s st q get w w1 args Hperm Hs Ht Hb)
        as (_ & Hnd & _).
    - exists p. rewrite (Stmt_bind_eq range s st (name_table q)) in Hb by done.
      by injection Hb as _ <-. }
  split.
  - intros m.
    destruct (Hpanic (map_get (reflect.ValueOf (PtrTo (Some (AMap m))))))
      as [p Hp].
    exists p. unfold Stmt_ExecMap, Stmt_QueryMap, Stmt_QueryRowMap, bind.
    cbv zeta.
    change (not_map_pointer (reflect.ValueOf (PtrTo (Some (AMap m))))) with false.
    cbv beta iota. by rewrite Hp.
  - intros fs.
    destruct (Hpanic (field_get (reflect.ValueOf (PtrTo (Some (AStruct fs))))))
      as [p Hp].
    exists p. unfold Stmt_ExecStruct, Stmt_QueryStruct, Stmt_QueryRowStruct, bind.
    cbv zeta.
    change (not_struct_pointer (reflect.ValueOf (PtrTo (Some (AStruct fs)))))
      with false.
    cbv beta iota. by rewrite Hp.
Qed.

Lemma X13_Stmt_map_binding_by_position_witness :
  let w := (DB_Prepare ok_driver sample_db "select ?a, ?b" empty_world).2 in
  let mp := PtrTo (Some (AMap {[ "a" := Raw (VInt 1); "b" := Raw (VInt 2) ]})) in
  exists args,
    length args = 2 /\
    Stmt_ExecMap ok_driver range_list (Some 0) mp w
    = Stmt_Exec ok_driver (Some 0) args w.
Proof.
  intros w mp.
  destruct (X13_Stmt_map_binding_by_position ok_driver range_list 0
              (mkStmt (Some 7) 0 0 true) "select ?a, ?b"
              {[ "a" := Raw (VInt 1); "b" := Raw (VInt 2) ]} w)
    as (H & _).
  - intros t. reflexivity.
  - reflexivity.
  - reflexivity.
  - destruct (H (Some 7, None) (Stmt_ExecMap ok_driver range_list (Some 0) mp w).2)
      as (args & (_ & Hl & _) & Heq).
    + vm_compute. reflexivity.
    + exists args. split; [exact Hl | exact Heq].
Defined.

Lemma X14_Stmt_repeated_name_panics_witness :
  let w := (DB_Prepare ok_driver sample_db "select ?a, ?b, ?a" empty_world).2 in
  exists p,
    Stmt_ExecMap ok_driver range_list (Some 0)
      (PtrTo (Some (AMap {[ "a" := Raw (VInt 1); "b" := Raw (VInt 2) ]}))) w
    = (Panic p, w).
Proof.
  intros w.
  destruct (X14_Stmt_repeated_name_panics ok_driver range_list 0
              (mkStmt (Some 7) 0 0 true) "select ?a, ?b, ?a" w)
    as (H & _).
  - intros t. reflexivity.
  - reflexivity.
  - reflexivity.
  - change (placeholders "select ?a, ?b, ?a") with ["a"; "b"; "a"].
    intros Hnd. apply NoDup_cons in Hnd as [Hnot _]. apply Hnot.
    apply elem_of_cons. right. apply elem_of_cons. by left.
  - destruct (H {[ "a" := Raw (VInt 1); "b" := Raw (VInt 2) ]}) as (p & Hp & _).
    exists p. exact Hp.
Defined.

Lemma lookup_lt_eq {A : Type} (l k : list A) :
  length l = length k ->
  (forall i x, l !! i = Some x -> k !! i = Some x) -> l = k.
Proof.
  intros Hl Hi. apply list_eq. intros i.
  destruct (l !! i) as [x|] eqn:Hx; [symmetry; by apply Hi|].
  apply lookup_ge_None in Hx. symmetry. apply lookup_ge_None. lia.
Qed.

(** X15. For a template that repeats no identifier and a map that has
    an entry for each of its placeholders, preparing the template and
    binding the map to the statement sends the driver the arguments
    [MapToSlice] returns for the same template and map: the prepared
    path and the ad-hoc path agree, in whatever order the name table
    is visited. *)
Theorem X15_prepared_binding_agrees_with_adhoc (drv : driver)
    (range : gmap string nat -> list (string * nat))
    (db : DB) (q : string) (m : gmap string any) (w w1 : world) (p : loc) :
  (forall t, range t ≡ₚ map_to_list t) ->
  NoDup (placeholders q) ->
  (forall n, n ∈ placeholders q -> is_Some (m !! n)) ->
  DB_Prepare drv db q w = (Done (Some p, None), w1) ->
  exists args,
    let mp := PtrTo (Some (AMap m)) in
    MapToSlice q mp = Done (rewritten q, args, None) /\
    Stmt_ExecMap drv range (Some p) mp w1 = Stmt_Exec drv (Some p) args w1 /\
    Stmt_QueryMap drv range (Some p) mp w1 = Stmt_Query drv (Some p) args w1 /\
    Stmt_QueryRowMap drv range (Some p) mp w1 = Stmt_QueryRow drv (Some p) args w1.
Proof.
  intros Hperm Hnd Hall Hprep.
  rewrite DB_Prepare_eq in Hprep.
  apply prepare_outcome_handle in Hprep as (-> & Ht & stmt & Hs).
  set (st := mkStmt stmt (DB_Mapper db) (length (tables w)) (DB_enableTrace db)).
  assert (Hs1 : stmts w1 !! length (stmts w) = Some st).
  { rewrite Hs. by apply list_lookup_middle. }
  assert (Ht1 : tables w1 !! Stmt_names st = Some (name_table q)).
  { rewrite Ht. by apply list_lookup_middle. }
  pose proof (MapToSlice_all_present q m Hall) as Hm.
  destruct (MapToSlice_bound q m _ _ Hm) as (_ & Hl & Hi).
  set (args := omap (fun n => m !! n) (placeholders q)) in *.
  set (mp := PtrTo (Some (AMap m))).
  set (get := map_get (reflect.ValueOf mp)).
  assert (Hb : Stmt_bind range (Some (length (stmts w))) get w1 = (Done args, w1)).
  { rewrite (Stmt_bind_eq range _ st (name_table q)) by done.
    destruct (bind_range_succeeds get (range (name_table q))
                (replicate (size (name_table q)) (Raw VNil))) as [args' Hb'].
    { intros k i Hin. rewrite Hperm in Hin. apply elem_of_map_to_list in Hin.
      apply name_table_last_occurrence in Hin as [Hk _].
      rewrite length_replicate.
      split.
      - apply lookup_lt_Some in Hk.
        by rewrite (proj2 (name_table_size_NoDup q) Hnd).
      - destruct (Hall k) as [x Hx]; [by eapply list_elem_of_lookup_2|].
        exists x. by apply map_get_Done. }
    rewrite Hb'. f_equal. f_equal.
    assert (Hb2 : Stmt_bind range (Some (length (stmts w))) get w1 = (Done args', w1))
      by (rewrite (Stmt_bind_eq range _ st (name_table q)) by done; by rewrite Hb').
    destruct (Stmt_bind_positions range _ st q get w1 w1 args' Hperm Hs1 Ht1 Hb2)
      as (_ & _ & Hl' & Hi').
    apply lookup_lt_eq; [congruence|].
    intros i x Hx.
    destruct (lookup_lt_is_Some_2 (placeholders q) i) as [n Hn].
    { apply lookup_lt_Some in Hx. lia. }
    destruct (Hi' i n Hn) as (y & Hy & Hy'). rewrite Hx in Hy'.
    injection Hy' as <-. apply map_get_Done in Hy.
    destruct (Hi i n Hn) as [-> _]. done. }
  exists args. cbv zeta. fold mp. split; [done|].
  unfold Stmt_ExecMap, Stmt_QueryMap, Stmt_QueryRowMap, bind. cbv zeta.
  change (not_map_pointer (reflect.ValueOf mp)) with false. cbv beta iota.
  fold get. unfold loc in *. by rewrite Hb.
Qed.

Lemma X15_prepared_binding_agrees_with_adhoc_witness :
  let w1 := (DB_Prepare ok_driver sample_db "select ?a, ?b" empty_world).2 in
  let mp := PtrTo (Some (AMap {[ "a" := Raw (VInt 1); "b" := Raw (VInt 2) ]})) in
  exists args,
    MapToSlice "select ?a, ?b" mp = Done ("select ?, ?", args, None) /\
    Stmt_ExecMap ok_driver range_list (Some 0) mp w1
    = Stmt_Exec ok_driver (Some 0) args w1.
Proof.
  intros w1 mp.
  destruct (X15_prepared_binding_agrees_with_adhoc ok_driver range_list
              sample_db "select ?a, ?b"
              {[ "a" := Raw (VInt 1); "b" := Raw (VInt 2) ]} empty_world w1 0)
    as (args & Hm & He & _).
  - intros t. reflexivity.
  - change (placeholders "select ?a, ?b") with ["a"; "b"].
    apply NoDup_cons. split.
    + intros [Hab|Hn]%elem_of_cons; [discriminate Hab | by apply elem_of_nil in Hn].
    + apply NoDup_singleton.
  - intros n Hn. change (placeholders "select ?a, ?b") with ["a"; "b"] in Hn.
    apply elem_of_cons in Hn as [->|Hn]; [by eexists|].
    apply elem_of_cons in Hn as [->|Hn]; [by eexists|].
    by apply elem_of_nil in Hn.
  - reflexivity.
  - exists args. split; [exact Hm | exact He].
Defined.

(** X18. The struct binders of a prepared statement pass fields on as
    they are.  If one of them returns at all, the template repeats no
    identifier, every placeholder names an exported field of the
    struct, and the binder behaves as the positional call of the
    statement with the field of the [i]-th placeholder at position
    [i]: a field that implements the conversion is handed on
    unconverted, where [StructToSlice] would convert it. *)
Theorem X18_Stmt_struct_binding_is_raw (drv : driver)
    (range : gmap string nat -> list (string * nat))
    (s : loc) (st : Stmt) (q : string) (fs : gmap string any) (w : world) :
  (forall t, range t ≡ₚ map_to_list t) ->
  stmts w !! s = Some st ->
  tables w !! Stmt_names st = Some (name_table q) ->
  let sp := PtrTo (Some (AStruct fs)) in
  let bound (args : list any) :=
    NoDup (placeholders q) /\
    length args = length (placeholders q) /\
    forall i n, placeholders q !! i = Some n ->
                args !! i = fs !! n /\ reflect.is_exported n = true in
  (forall r w', Stmt_ExecStruct drv range (Some s) sp w = (Done r, w') ->
     exists args, bound args /\
       Stmt_ExecStruct drv range (Some s) sp w = Stmt_Exec drv (Some s) args w) /\
  (forall r w', Stmt_QueryStruct drv range (Some s) sp w = (Done r, w') ->
     exists args, bound args /\
       Stmt_QueryStruct drv range (Some s) sp w = Stmt_Query drv (Some s) args w) /\
  (forall r w', Stmt_QueryRowStruct drv range (Some s) sp w = (Done r, w') ->
     exists args, bound args /\
       Stmt_QueryRowStruct drv range (Some s) sp w
       = Stmt_QueryRow drv (Some s) args w).
Proof.
  intros Hperm Hs Ht sp bound.
  set (get := field_get (reflect.ValueOf sp)).
  assert (Hbound : forall args w',
            Stmt_bind range (Some s) get w = (Done args, w') ->
            w' = w /\ bound args).
  { intros args w' Hb.
    destruct (Stmt_bind_positions range s st q get w w' args Hperm Hs Ht Hb)
      as (-> & Hnd & Hl & Hi).
    split; [done|]. split; [done|]. split; [done|].
    intros i n Hn. destruct (Hi i n Hn) as (x & Hx & ->).
    apply field_get_Done in Hx as [Hx Hex]. by rewrite Hx. }
  unfold Stmt_ExecStruct, Stmt_QueryStruct, Stmt_QueryRowStruct, bind. cbv zeta.
  change (not_struct_pointer (reflect.ValueOf sp)) with false.
  cbv beta iota. fold get.
  destruct (Stmt_bind range (Some s) get w) as [[args|p] w1] eqn:Hb.
  - destruct (Hbound args w1 eq_refl) as [-> Hargs].
    repeat split; intros r w' _; exists args; by split.
  - repeat split; intros r w' [=].
Qed.

Lemma X18_Stmt_struct_binding_is_raw_witness :
  let w := (DB_Prepare ok_driver sample_db "select ?A" empty_world).2 in
  let sp := PtrTo (Some (AStruct {[ "A" := Valuer (VInt 1) None ]})) in
  exists args,
    args !! 0 = Some (Valuer (VInt 1) None) /\
    Stmt_ExecStruct ok_driver range_list (Some 0) sp w
    = Stmt_Exec ok_driver (Some 0) args w.
Proof.
  intros w sp.
  destruct (X18_Stmt_struct_binding_is_raw ok_driver range_list 0
              (mkStmt (Some 7) 0 0 true) "select ?A"
              {[ "A" := Valuer (VInt 1) None ]} w)
    as (H & _).
  - intros t. reflexivity.
  - reflexivity.
  - reflexivity.
  - destruct (H (Some 7, None)
                (Stmt_ExecStruct ok_driver range_list (Some 0) sp w).2)
      as (args & (_ & _ & Hi) & Heq).
    + vm_compute. reflexivity.
    + exists args. split; [exact (proj1 (Hi 0 "A" eq_refl)) | exact Heq].
Defined.

(** X19. A positional call on a prepared statement makes one driver
    call on the statement of the handle with the arguments given; when
    the handle traces, the span around it is named [Stmt] and tagged
    [Stmt Exec] or [Stmt Query], not with the SQL text.  [Query] and
    [QueryRow] drop the rows on a driver error and wrap them with the
    mapper of the handle otherwise.  On a nil handle the three calls
    panic before anything is sent. *)
Theorem X19_Stmt_positional_calls (drv : driver) (s : loc) (st : Stmt)
    (args : list any) (w : world) :
  stmts w !! s = Some st ->
  let span (tag : string) (c : call) : list event :=
    if Stmt_enableTrace st
    then [SpanStart "Stmt" tag; DriverCall c; SpanFinish]
    else [DriverCall c] in
  let after (tag : string) (c : call) : world :=
    mkWorld (tables w) (stmts w) (log w ++ span tag c) in
  let exec := StmtExecContext (Stmt_sql st) args in
  let query := StmtQueryContext (Stmt_sql st) args in
  Stmt_Exec drv (Some s) args w = (Done (drv exec), after "Stmt Exec" exec) /\
  Stmt_Query drv (Some s) args w
    = (Done (rows_result (Stmt_Mapper st) (drv query)), after "Stmt Query" query) /\
  Stmt_QueryRow drv (Some s) args w
    = (Done (row_result (Stmt_Mapper st) (drv query)), after "Stmt Query" query) /\
  Stmt_Exec drv None args w = (Panic PanicNilDereference, w) /\
  Stmt_Query drv None args w = (Panic PanicNilDereference, w) /\
  Stmt_QueryRow drv None args w = (Panic PanicNilDereference, w).
Proof.
  intros Hs span after exec query.
  rewrite (Stmt_Exec_eq drv s st), (Stmt_Query_eq drv s st),
    (Stmt_QueryRow_eq drv s st) by done.
  unfold logged, call_events, spanned, after, span.
  repeat split; by destruct (Stmt_enableTrace st).
Qed.

Lemma X19_Stmt_positional_calls_witness :
  let w := (DB_Prepare ok_driver sample_db "select ?a" empty_world).2 in
  Stmt_Exec ok_driver (Some 0) [Raw (VInt 1)] w
  = (Done (Some 7, None),
     mkWorld (tables w) (stmts w)
       (log w ++ [SpanStart "Stmt" "Stmt Exec";
                  DriverCall (StmtExecContext (Some 7) [Raw (VInt 1)]);
                  SpanFinish])).
Proof.
  intros w.
  exact (proj1 (X19_Stmt_positional_calls ok_driver 0 (mkStmt (Some 7) 0 0 true)
                  [Raw (VInt 1)] w eq_refl)).
Defined.

(** ** Further properties of [Prepare] *)

Lemma prepare_outcome_cases (drv : driver) (send : string -> call)
    (mapper : IMapper) (trace : bool) (q : string) (w : world) :
  let out := prepare_outcome drv send mapper trace q w in
  (forall h e, drv (send (rewritten q)) = (h, Some e) ->
     out.1 = Done (None, Some e) /\ stmts out.2 = stmts w) /\
  (forall h, drv (send (rewritten q)) = (h, None) ->
     out.1 = Done (Some (length (stmts w)), None) /\
     stmts out.2 !! length (stmts w)
       = Some (mkStmt h mapper (length (tables w)) trace) /\
     tables out.2 !! length (tables w) = Some (name_table q)) /\
  (forall p s, stmts w !! p = Some s -> stmts out.2 !! p = Some s) /\
  (forall l t, tables w !! l = Some t -> tables out.2 !! l = Some t).
Proof.
  unfold prepare_outcome.
  destruct (drv (send (rewritten q))) as [h [e|]]; simpl.
  - split; [by intros h' e' [= <- <-]|]. split; [by intros h' [=]|].
    split; [done|]. intros l t Hl. by apply lookup_app_l_Some.
  - split; [by intros h' e' [=]|]. split.
    + intros h' [= <-]. split; [done|]. split; by apply list_lookup_middle.
    + split; intros i x Hx; by apply lookup_app_l_Some.
Qed.

(** X17. [DB.Prepare] and [Tx.Prepare] return a driver failure as it
    is, with a nil handle, and create no statement.  On success the
    handle is a new statement that carries the driver's statement, the
    mapper and the tracing flag of the connection or transaction, and a
    new name table holding the table of the template.  Either way the
    statements and name tables already in the store are left as they
    were. *)
Theorem X17_Prepare_outcome (drv : driver) (db : DB) (tx : Tx) (q : string)
    (w : world) :
  let outcome (out : res (option loc * option error) * world)
              (c : call) (mapper : IMapper) (trace : bool) :=
    (forall h e, drv c = (h, Some e) ->
       out.1 = Done (None, Some e) /\ stmts out.2 = stmts w) /\
    (forall h, drv c = (h, None) ->
       out.1 = Done (Some (length (stmts w)), None) /\
       stmts out.2 !! length (stmts w)
         = Some (mkStmt h mapper (length (tables w)) trace) /\
       tables out.2 !! length (tables w) = Some (name_table q)) /\
    (forall p s, stmts w !! p = Some s -> stmts out.2 !! p = Some s) /\
    (forall l t, tables w !! l = Some t -> tables out.2 !! l = Some t) in
  outcome (DB_Prepare drv db q w) (DBPrepareContext (DB_sql db) (rewritten q))
          (DB_Mapper db) (DB_enableTrace db) /\
  outcome (Tx_Prepare drv tx q w) (TxPrepareContext (Tx_sql tx) (rewritten q))
          (Tx_Mapper tx) (Tx_enableTrace tx).
Proof.
  intros outcome. rewrite DB_Prepare_eq, Tx_Prepare_eq. split.
  - apply (prepare_outcome_cases drv (DBPrepareContext (DB_sql db))).
  - apply (prepare_outcome_cases drv (TxPrepareContext (Tx_sql tx))).
Qed.

Lemma X17_Prepare_outcome_witness :
  (DB_Prepare (fun _ => (None, Some (ForeignError 1))) sample_db
              "select ?a" empty_world).1
  = Done (None, Some (ForeignError 1)).
Proof.
  destruct (X17_Prepare_outcome (fun _ => (None, Some (ForeignError 1)))
              sample_db sample_tx "select ?a" empty_world) as [(H & _) _].
  exact (proj1 (H None (ForeignError 1) eq_refl)).
Defined.

(** ** The span name and the options *)

Lemma prefix_space (c : ascii) (t : string) :
  String.prefix " " (String c t) = Ascii.eqb c " ".
Proof.
  change (String.prefix " " (String c t))
    with (if ascii_dec " " c then String.prefix "" t else false).
  destruct (ascii_dec " " c) as [<-|Hc].
  - by destruct t.
  - symmetry. apply Ascii.eqb_neq. congruence.
Qed.

Lemma index_space_cons (c : ascii) (t : string) :
  String.index 0 " " (String c t) =
  if Ascii.eqb c " " then Some 0
  else match String.index 0 " " t with Some n => Some (S n) | None => None end.
Proof.
  change (String.index 0 " " (String c t))
    with (if String.prefix " " (String c t) then Some 0
          else match String.index 0 " " t with
               | Some n => Some (S n)
               | None => None
               end).
  by rewrite prefix_space.
Qed.

Lemma until_space_index (t : string) :
  match String.index 0 " " t with
  | Some n => String.substring 0 n t = until_space t
  | None => until_space t = t
  end.
Proof.
  induction t as [|c t IH]; [done|].
  rewrite index_space_cons. simpl until_space.
  destruct (Ascii.eqb c " "); [done|].
  destruct (String.index 0 " " t) as [n|]; simpl; by rewrite IH.
Qed.

Lemma operationName_cons (c : ascii) (t : string) :
  operationName (String c t) =
  if Ascii.eqb c " " then String c t else String c (until_space t).
Proof.
  unfold operationName. rewrite index_space_cons.
  pose proof (until_space_index t) as Hi.
  destruct (Ascii.eqb c " "); [done|].
  destruct (String.index 0 " " t) as [n|]; simpl; by rewrite Hi.
Qed.

Lemma until_space_split (t : string) :
  has_space (until_space t) = false /\
  exists rest, t = until_space t +:+ rest /\
               (rest = "" \/ exists r, rest = String " " r).
Proof.
  induction t as [|c t (IH1 & rest & IH2 & IH3)]; simpl.
  - split; [done|]. exists "". by split; [|left].
  - destruct (Ascii.eqb_spec c " ") as [->|Hc]; simpl.
    + split; [done|]. exists (String " " t). split; [done|]. right. by exists t.
    + apply Ascii.eqb_neq in Hc. rewrite Hc, IH1. split; [done|].
      exists rest. split; [by rewrite <- IH2 | done].
Qed.

(** X11. The name of a span.  For a query that starts with a space the
    name is the whole query.  For any other non-empty query it is the
    first word: the text before the first space, or the whole query
    when it holds no space; the name holds no space, and the query is
    the name followed by nothing or by a space and the rest. *)
Theorem X11_span_name_is_first_word (c : ascii) (t : string) :
  (c = " "%char -> operationName (String c t) = String c t) /\
  (c <> " "%char ->
     has_space (operationName (String c t)) = false /\
     exists rest, String c t = operationName (String c t) +:+ rest /\
                  (rest = "" \/ exists r, rest = String " " r)).
Proof.
  rewrite operationName_cons. split.
  - by intros ->.
  - intros Hc. apply Ascii.eqb_neq in Hc. rewrite Hc.
    destruct (until_space_split t) as (H1 & rest & H2 & H3).
    simpl. rewrite Hc, H1. split; [done|].
    exists rest. split; [by rewrite <- H2 | done].
Qed.

Lemma X11_span_name_is_first_word_witness :
  has_space (operationName "select ? from t") = false /\
  operationName " select 1" = " select 1".
Proof.
  destruct (X11_span_name_is_first_word "s" "elect ? from t") as [_ H].
  destruct (X11_span_name_is_first_word " " "select 1") as [H' _].
  split.
  - apply H. discriminate.
  - apply H'. reflexivity.
Defined.

Lemma FromDB_fold (d : DB) (os : list option_spec) :
  foldl (fun xdb opt => opt xdb) d (to_Option <$> os)
  = mkDB (DB_sql d)
         (foldl (fun im o => match o with WithMapper im' => im' | WithTrace _ => im end)
                (DB_Mapper d) os)
         (foldl (fun b o => match o with WithTrace b' => b' | WithMapper _ => b end)
                (DB_enableTrace d) os).
Proof.
  revert d. induction os as [|o os IH]; intros d; [by destruct d|].
  csimpl. rewrite IH. by destruct o.
Qed.

(** X16. [FromDB] applies its options from left to right over a handle
    that starts with the default mapper and tracing off.  With the two
    options of [db.go] the result keeps the connection it was given,
    takes the mapper of the last [CacheMapperOption] (the default one
    when there is none) and the flag of the last [EnableTraceOption]
    (off when there is none); options of one kind do not disturb the
    other. *)
Theorem X16_FromDB_last_option_wins (default_mapper : IMapper) (db : nat)
    (os : list option_spec) :
  FromDB default_mapper db (to_Option <$> os)
  = mkDB db (chosen_mapper default_mapper os) (chosen_trace os) /\
  (forall im, chosen_mapper default_mapper (os ++ [WithMapper im]) = im /\
              chosen_trace (os ++ [WithMapper im]) = chosen_trace os) /\
  (forall b, chosen_trace (os ++ [WithTrace b]) = b /\
             chosen_mapper default_mapper (os ++ [WithTrace b])
             = chosen_mapper default_mapper os).
Proof.
  split; [apply FromDB_fold|].
  unfold chosen_mapper, chosen_trace.
  split; intros x; by rewrite !foldl_app.
Qed.

(** ** More on name tables *)

Lemma last_occurrence_exists (ns : list string) (k : string) :
  k ∈ ns -> exists j, ns !! j = Some k /\ k ∉ drop (S j) ns.
Proof.
  induction ns as [|n ns IH]; intros Hin; [by apply elem_of_nil in Hin|].
  destruct (decide (k ∈ ns)) as [Hk|Hk].
  - destruct (IH Hk) as (j & Hj & Hnot). by exists (S j).
  - apply elem_of_cons in Hin as [->|Hin]; [|done]. by exists 0.
Qed.

Lemma placeholders_shape (q : string) :
  Forall (fun k => k <> "" /\ all_word k = true) (placeholders q).
Proof.
  unfold placeholders. apply Forall_fmap.
  eapply Forall_impl; [apply segments_match_shape|].
  intros m (w & -> & Hne & Hw). by simpl.
Qed.

(** X21. The name table of a template has an entry for exactly the
    identifiers of its placeholders; every key is a non-empty run of
    word characters, every ordinal is below the number of placeholders,
    and the table has as many entries as the template has placeholders
    exactly when no identifier is repeated (it has fewer otherwise). *)
Theorem X21_name_table_keys (drv : driver) (db : DB) (q : string) (w : world) :
  exists t,
    tables (DB_Prepare drv db q w).2 = tables w ++ [t] /\
    (forall k, is_Some (t !! k) <-> k ∈ placeholders q) /\
    (forall k j, t !! k = Some j ->
       (k <> "" /\ all_word k = true) /\ j < length (placeholders q)) /\
    size t <= length (placeholders q) /\
    (size t = length (placeholders q) <-> NoDup (placeholders q)).
Proof.
  exists (name_table q). rewrite DB_Prepare_eq.
  split; [apply prepare_outcome_store|].
  split; [|split; [|split; [apply name_table_size | apply name_table_size_NoDup]]].
  - intros k. split.
    + intros [j Hj]. apply name_table_last_occurrence in Hj as [Hj _].
      by eapply list_elem_of_lookup_2.
    + intros Hk. destruct (last_occurrence_exists _ k Hk) as (j & Hj & Hnot).
      exists j. by apply name_table_last_occurrence.
  - intros k j Hj. apply name_table_last_occurrence in Hj as [Hj _]. split.
    + pose proof (placeholders_shape q) as Hall.
      rewrite Forall_forall in Hall. apply Hall. by eapply list_elem_of_lookup_2.
    + by eapply lookup_lt_Some.
Qed.

Lemma prepare_outcome_twice (drv : driver) (send1 send2 : string -> call)
    (mapper1 mapper2 : IMapper) (trace1 trace2 : bool) (q1 q2 : string)
    (w w1 w2 : world) (p1 p2 : loc) :
  prepare_outcome drv send1 mapper1 trace1 q1 w = (Done (Some p1, None), w1) ->
  prepare_outcome drv send2 mapper2 trace2 q2 w1 = (Done (Some p2, None), w2) ->
  p1 <> p2 /\
  exists s1 s2,
    stmts w2 !! p1 = Some s1 /\ stmts w2 !! p2 = Some s2 /\
    Stmt_names s1 <> Stmt_names s2 /\
    tables w2 !! Stmt_names s1 = Some (name_table q1) /\
    tables w2 !! Stmt_names s2 = Some (name_table q2).
Proof.
  intros H1 H2.
  apply prepare_outcome_handle in H1 as (-> & T1 & stmt1 & S1).
  apply prepare_outcome_handle in H2 as (-> & T2 & stmt2 & S2).
  rewrite S1, length_app. simpl. split; [lia|].
  eexists _, _. split; [|split].
  { rewrite S2, S1, <- app_assoc. by apply list_lookup_middle. }
  { rewrite S2. apply list_lookup_middle. rewrite S1, length_app. simpl. lia. }
  simpl. rewrite T1, length_app. simpl. split; [lia|]. split.
  - rewrite T2, T1, <- app_assoc. by apply list_lookup_middle.
  - rewrite T2. apply list_lookup_middle. rewrite T1, length_app. simpl. lia.
Qed.

(** X20. Two statements prepared one after the other, on the same
    connection, on the same transaction, or first on a transaction and
    then on a connection, for the same template or for two different
    ones, are two different handles with two different name tables;
    after the second call each table holds the table of its own
    template. *)
Theorem X20_successive_prepares_are_independent (drv : driver) (db : DB)
    (tx : Tx) (q1 q2 : string) (w w1 w2 : world) (p1 p2 : loc) :
  let independent :=
    p1 <> p2 /\
    exists s1 s2,
      stmts w2 !! p1 = Some s1 /\ stmts w2 !! p2 = Some s2 /\
      Stmt_names s1 <> Stmt_names s2 /\
      tables w2 !! Stmt_names s1 = Some (name_table q1) /\
      tables w2 !! Stmt_names s2 = Some (name_table q2) in
  (DB_Prepare drv db q1 w = (Done (Some p1, None), w1) ->
   DB_Prepare drv db q2 w1 = (Done (Some p2, None), w2) -> independent) /\
  (Tx_Prepare drv tx q1 w = (Done (Some p1, None), w1) ->
   Tx_Prepare drv tx q2 w1 = (Done (Some p2, None), w2) -> independent) /\
  (Tx_Prepare drv tx q1 w = (Done (Some p1, None), w1) ->
   DB_Prepare drv db q2 w1 = (Done (Some p2, None), w2) -> independent).
Proof.
  intros independent. rewrite !DB_Prepare_eq, !Tx_Prepare_eq.
  split; [|split]; intros H1 H2; by eapply prepare_outcome_twice.
Qed.

Lemma X20_successive_prepares_are_independent_witness :
  let w1 := (DB_Prepare ok_driver sample_db "select ?a" empty_world).2 in
  let w2 := (DB_Prepare ok_driver sample_db "select ?a" w1).2 in
  exists s1 s2,
    stmts w2 !! 0 = Some s1 /\ stmts w2 !! 1 = Some s2 /\
    Stmt_names s1 <> Stmt_names s2.
Proof.
  intros w1 w2.
  destruct (X20_successive_prepares_are_independent ok_driver sample_db
              sample_tx "select ?a" "select ?a" empty_world w1 w2 0 1)
    as (H & _).
  destruct (H eq_refl eq_refl) as (_ & s1 & s2 & H1 & H2 & Hne & _).
  exists s1, s2. split; [exact H1|]. split; [exact H2 | exact Hne].
Defined.
